(** * Clicking game: pointer tracker, bounded motion engine, dodge controller

    A shallow embedding of [main.js] (classes [MouseTracker], [BoundedMotion]
    and [MovingButton]) and the properties of its specification.

    Modelling conventions.

    - A JavaScript number is a value of [num]: a real number, [NaN], or one of
      the two infinities.  Arithmetic on finite values is exact (no rounding,
      no overflow) and zero carries no sign; the special values combine as in
      IEEE 754.  All statements below are statements about this exact
      arithmetic.
    - A method that mutates [this] becomes a function from the old object to
      the new one; a method that may throw returns a [result].
    - The [while] loop of [BoundedMotion.update] is a fixpoint on a fuel
      argument; running out of fuel is [None].
    - What the host supplies ([Date.now()], [Math.random()], bounding
      rectangles, timer identifiers) is passed in as an argument. *)

From Stdlib Require Import Reals Psatz List Bool ZArith.
Import ListNotations.

(* ================================================================= *)
(** ** JavaScript numbers in exact arithmetic *)

Module JS.

Local Open Scope R_scope.

Inductive num : Type :=
| NaN
| PInf
| NInf
| Fin (r : R).

Definition Rltb (a b : R) : bool := if Rlt_dec a b then true else false.
Definition Reqb (a b : R) : bool := if Req_dec_T a b then true else false.

(** [Number.isFinite] *)
Definition isFinite (x : num) : bool :=
  match x with Fin _ => true | _ => false end.

(** Unary minus. *)
Definition neg (x : num) : num :=
  match x with
  | NaN => NaN
  | PInf => NInf
  | NInf => PInf
  | Fin r => Fin (- r)
  end.

Definition add (x y : num) : num :=
  match x, y with
  | NaN, _ | _, NaN => NaN
  | PInf, NInf | NInf, PInf => NaN
  | PInf, _ | _, PInf => PInf
  | NInf, _ | _, NInf => NInf
  | Fin a, Fin b => Fin (a + b)
  end.

Definition sub (x y : num) : num := add x (neg y).

(** The infinity with the sign of a product: [s] is true for a negative
    result. *)
Definition inf (s : bool) : num := if s then NInf else PInf.

Definition mul (x y : num) : num :=
  match x, y with
  | NaN, _ | _, NaN => NaN
  | PInf, PInf | NInf, NInf => PInf
  | PInf, NInf | NInf, PInf => NInf
  | PInf, Fin r | Fin r, PInf =>
      if Reqb r 0 then NaN else inf (Rltb r 0)
  | NInf, Fin r | Fin r, NInf =>
      if Reqb r 0 then NaN else inf (negb (Rltb r 0))
  | Fin a, Fin b => Fin (a * b)
  end.

Definition div (x y : num) : num :=
  match x, y with
  | NaN, _ | _, NaN => NaN
  | (PInf | NInf), (PInf | NInf) => NaN
  | PInf, Fin r => inf (Rltb r 0)
  | NInf, Fin r => inf (negb (Rltb r 0))
  | Fin _, (PInf | NInf) => Fin 0
  | Fin a, Fin b =>
      if Reqb b 0
      then (if Reqb a 0 then NaN else inf (Rltb a 0))
      else Fin (a / b)
  end.

(** [Math.abs] *)
Definition abs (x : num) : num :=
  match x with
  | NaN => NaN
  | PInf | NInf => PInf
  | Fin r => Fin (Rabs r)
  end.

(** [Math.sqrt] *)
Definition sqrt (x : num) : num :=
  match x with
  | NaN | NInf => NaN
  | PInf => PInf
  | Fin r => if Rltb r 0 then NaN else Fin (R_sqrt.sqrt r)
  end.

(** [Math.cos], [Math.sin] *)
Definition cos (x : num) : num :=
  match x with Fin r => Fin (Rtrigo_def.cos r) | _ => NaN end.
Definition sin (x : num) : num :=
  match x with Fin r => Fin (Rtrigo_def.sin r) | _ => NaN end.

(** [Math.round]: the nearest integer, halves going up. *)
Definition round (x : num) : num :=
  match x with Fin r => Fin (IZR (Int_part (r + / 2))) | _ => x end.

(** [Math.floor] *)
Definition floor (x : num) : num :=
  match x with Fin r => Fin (IZR (Int_part r)) | _ => x end.

(** The comparison operators; every comparison with [NaN] is false. *)
Definition ltb (x y : num) : bool :=
  match x, y with
  | NaN, _ | _, NaN => false
  | _, NInf => false
  | NInf, _ => true
  | PInf, _ => false
  | Fin _, PInf => true
  | Fin a, Fin b => Rltb a b
  end.

(** [===] on numbers *)
Definition eqb (x y : num) : bool :=
  match x, y with
  | PInf, PInf | NInf, NInf => true
  | Fin a, Fin b => Reqb a b
  | _, _ => false
  end.

Definition gtb (x y : num) : bool := ltb y x.
Definition leb (x y : num) : bool := ltb x y || eqb x y.
Definition geb (x y : num) : bool := leb y x.

(** [Math.max] of two numbers *)
Definition max (x y : num) : num :=
  match x, y with
  | NaN, _ | _, NaN => NaN
  | _, _ => if ltb x y then y else x
  end.

(** [Math.sign] *)
Definition sign (x : num) : num :=
  match x with
  | NaN => NaN
  | PInf => Fin 1
  | NInf => Fin (-1)
  | Fin r => if Rltb r 0 then Fin (-1) else if Reqb r 0 then Fin 0 else Fin 1
  end.

(** A field that may hold [undefined]: read in arithmetic it is [NaN]. *)
Definition toNumber (x : option num) : num :=
  match x with Some n => n | None => NaN end.

Declare Scope js_scope.
Delimit Scope js_scope with js.
Bind Scope js_scope with num.

Notation "x + y" := (add x y) : js_scope.
Notation "x - y" := (sub x y) : js_scope.
Notation "x * y" := (mul x y) : js_scope.
Notation "x / y" := (div x y) : js_scope.
Notation "- x" := (neg x) : js_scope.
Notation "x <? y" := (ltb x y) (at level 70) : js_scope.
Notation "x <=? y" := (leb x y) (at level 70) : js_scope.
Notation "x >? y" := (gtb x y) (at level 70) : js_scope.
Notation "x >=? y" := (geb x y) (at level 70) : js_scope.
Notation "x === y" := (eqb x y) (at level 70) : js_scope.

(** Numeric literals of the program. *)
Definition lit (z : Z) : num := Fin (IZR z).
Definition PI : num := Fin Rtrigo1.PI.

End JS.

Import JS.
Coercion Fin : R >-> num.

(* ================================================================= *)
(** ** Exceptions *)

Inductive exn : Type :=
| TypeError
| RangeError
| Error.

Inductive result (A : Type) : Type :=
| Ok (a : A)
| Throw (e : exn).
Arguments Ok {A} a.
Arguments Throw {A} e.

Definition bind {A B : Type} (r : result A) (k : A -> result B) : result B :=
  match r with
  | Ok a => k a
  | Throw e => Throw e
  end.

Notation "'do' x <- r ; k" := (bind r (fun x => k))
  (at level 10, x pattern, r at level 100, k at level 200).
Notation "r ;; k" := (bind r (fun _ => k))
  (at level 100, k at level 200, right associativity).

(** [checkRange]: the [typeof] test always passes on a [num]; the range test
    is taken from the source. *)
Definition checkRange (n lower : num) (lowerClosed : bool)
    (upper : num) (upperClosed : bool) : result unit :=
  if negb (((n >? lower) || (lowerClosed && (n === lower))) &&
           ((n <? upper) || (upperClosed && (n === upper))))%js
  then Throw RangeError
  else Ok tt.

(* ================================================================= *)
(** ** The pointer tracker *)

Module MouseTracker.

Record t : Type := mk {
  _velX : num;
  _velY : num;
  _posX : num;
  _posY : num;
  _clientX : num;
  _clientY : num;
  _scrollX : num;
  _scrollY : num;
  _lastTimeStamp : num;
  _nowAtSample : num;
  _offsetX : num;
  _offsetY : num;
  _sampleExpireTime : num
}.

(** The fields of a mouse event that the tracker reads. *)
Record event : Type := {
  clientX : num;
  clientY : num;
  timeStamp : num
}.

(** What the tracker reads from the page while it handles one event:
    [Date.now()], the bounding rectangle of the tracking area, and the
    scroll position of the window. *)
Record host : Type := {
  now : num;
  rect_x : num;
  rect_y : num;
  window_scrollX : num;
  window_scrollY : num
}.

(** The constructor, from the geometry it reads: the two bounding
    rectangles, the border widths of the relative element (already read as
    pixel lengths) and the scroll position. *)
Definition new (trackingRect_x trackingRect_y relativeRect_x relativeRect_y
    borderLeft borderTop scrollX scrollY : num) : t :=
  {| _velX := lit 0;
     _velY := lit 0;
     _posX := NaN;
     _posY := NaN;
     _clientX := NaN;
     _clientY := NaN;
     _scrollX := scrollX;
     _scrollY := scrollY;
     _lastTimeStamp := NaN;
     _nowAtSample := NaN;
     _offsetX := relativeRect_x - trackingRect_x + borderLeft;
     _offsetY := relativeRect_y - trackingRect_y + borderTop;
     _sampleExpireTime := lit 300 |}%js.

Definition _recentVelSample (this : t) (now vel : num) : num :=
  if (now - _nowAtSample this <=? _sampleExpireTime this)%js
  then vel
  else lit 0.

Definition velX (this : t) (now : num) : num :=
  _recentVelSample this now (_velX this).

Definition velY (this : t) (now : num) : num :=
  _recentVelSample this now (_velY this).

Definition posX (this : t) : num := _posX this.
Definition posY (this : t) : num := _posY this.

Definition _timeAvVel (this : t) (curr diffPos diffTimeMillisec : num) : num :=
  let vel := ((diffPos / diffTimeMillisec) * lit 1000)%js in
  if negb (isFinite vel) then lit 0
  else if (diffTimeMillisec >? _sampleExpireTime this)%js then vel
  else if negb (isFinite curr) then vel
  else if (curr === lit 0)%js then vel
  else if ((vel <? lit 0) && (curr >? lit 0))%js then vel
  else if ((vel >? lit 0) && (curr <? lit 0))%js then vel
  else ((curr + vel) / lit 2)%js.

(** The tracker lives inside a larger object [W] (the button that owns it),
    and its position handler is a method of that object which reads the
    tracker back.  The methods therefore act on [W] through [get] and
    [set]; [posHandler] is the handler given to the constructor. *)
Section Methods.

Context {W : Type}.
Variable get : W -> t.
Variable set : t -> W -> W.
Variable posHandler : W -> result W.

Definition _updateMouseMotion (diffX diffY timeStamp : num) (h : host)
    (w : W) : result W :=
  let this := get w in
  let diffTime := (timeStamp - _lastTimeStamp this)%js in
  let this' :=
    {| _velX := _timeAvVel this (_velX this) diffX diffTime;
       _velY := _timeAvVel this (_velY this) diffY diffTime;
       _posX := (_clientX this - rect_x h - _offsetX this)%js;
       _posY := (_clientY this - rect_y h - _offsetY this)%js;
       _clientX := _clientX this;
       _clientY := _clientY this;
       _scrollX := _scrollX this;
       _scrollY := _scrollY this;
       _lastTimeStamp := timeStamp;
       _nowAtSample := now h;
       _offsetX := _offsetX this;
       _offsetY := _offsetY this;
       _sampleExpireTime := _sampleExpireTime this |} in
  posHandler (set this' w).

Definition set_client (this : t) (x y : num) : t :=
  {| _velX := _velX this;
     _velY := _velY this;
     _posX := _posX this;
     _posY := _posY this;
     _clientX := x;
     _clientY := y;
     _scrollX := _scrollX this;
     _scrollY := _scrollY this;
     _lastTimeStamp := _lastTimeStamp this;
     _nowAtSample := _nowAtSample this;
     _offsetX := _offsetX this;
     _offsetY := _offsetY this;
     _sampleExpireTime := _sampleExpireTime this |}.

Definition set_scroll (this : t) (x y : num) : t :=
  {| _velX := _velX this;
     _velY := _velY this;
     _posX := _posX this;
     _posY := _posY this;
     _clientX := _clientX this;
     _clientY := _clientY this;
     _scrollX := x;
     _scrollY := y;
     _lastTimeStamp := _lastTimeStamp this;
     _nowAtSample := _nowAtSample this;
     _offsetX := _offsetX this;
     _offsetY := _offsetY this;
     _sampleExpireTime := _sampleExpireTime this |}.

Definition _updateToClientPos (ev : event) (h : host) (w : W) : result W :=
  let this := get w in
  let lastX := _clientX this in
  let lastY := _clientY this in
  if ((lastX === clientX ev) && (lastY === clientY ev))%js then
    (* ignore duplicate position events *)
    Ok w
  else
    let diffX := (clientX ev - lastX)%js in
    let diffY := (clientY ev - lastY)%js in
    _updateMouseMotion diffX diffY (timeStamp ev) h
      (set (set_client this (clientX ev) (clientY ev)) w).

Definition _updateToUnknown (ev : event) (h : host) (w : W) : result W :=
  _updateMouseMotion NaN NaN (timeStamp ev) h
    (set (set_client (get w) NaN NaN) w).

Definition _updateFromMouseMove (ev : event) (h : host) (w : W) : result W :=
  _updateToClientPos ev h w.

Definition _updateFromMouseOver (ev : event) (h : host) (w : W) : result W :=
  _updateToClientPos ev h w.

Definition _updateFromScroll (ev : event) (h : host) (w : W) : result W :=
  let this := get w in
  let newScrollX := window_scrollX h in
  let newScrollY := window_scrollY h in
  do w' <- _updateMouseMotion
             (newScrollX - _scrollX this)%js (newScrollY - _scrollY this)%js
             (timeStamp ev) h w;
  Ok (set (set_scroll (get w') newScrollX newScrollY) w').

Definition _updateFromMouseLeave (ev : event) (h : host) (w : W) : result W :=
  _updateToUnknown ev h w.

Definition _updateFromResize (ev : event) (h : host) (w : W) : result W :=
  _updateToUnknown ev h w.

End Methods.

End MouseTracker.

(* ================================================================= *)
(** ** The bounded motion engine (one axis) *)

Module BoundedMotion.

Record t : Type := mk {
  _halfReboundVel : num;
  _accel : num;
  _upperPos : num;
  _trajStartGlobalTime : option num;
  _initPos : num;
  pos : num;
  _initVel : num;
  vel : num
}.

Definition new (upperPos halfReboundVel accel : num) : result t :=
  checkRange upperPos (lit 0) false PInf true ;;
  checkRange halfReboundVel (lit 0) false PInf false ;;
  checkRange accel (lit 0) false PInf false ;;
  Ok {| _halfReboundVel := halfReboundVel;
        _accel := accel;
        _upperPos := upperPos;
        _trajStartGlobalTime := None;
        _initPos := NaN;
        pos := NaN;
        _initVel := lit 0;
        vel := lit 0 |}.

Definition setPos (this : t) (initPos : num) : result t :=
  checkRange initPos (lit 0) true (_upperPos this) true ;;
  Ok {| _halfReboundVel := _halfReboundVel this;
        _accel := _accel this;
        _upperPos := _upperPos this;
        _trajStartGlobalTime := _trajStartGlobalTime this;
        _initPos := initPos;
        pos := initPos;
        _initVel := _initVel this;
        vel := vel this |}.

Definition setVel (this : t) (globalTime initVel : num) : result t :=
  checkRange globalTime NInf false PInf false ;;
  checkRange initVel NInf false PInf false ;;
  Ok {| _halfReboundVel := _halfReboundVel this;
        _accel := _accel this;
        _upperPos := _upperPos this;
        _trajStartGlobalTime := Some globalTime;
        _initPos := _initPos this;
        pos := pos this;
        _initVel := initVel;
        vel := initVel |}.

Definition _velAtTrajTime (this : t) (trajTime : num) : num :=
  let initVel := _initVel this in
  if (initVel >=? lit 0)%js
  then (initVel - (_accel this * trajTime))%js
  else (initVel + (_accel this * trajTime))%js.

Definition _trajTimeAtStop (this : t) : num :=
  (abs (_initVel this) / _accel this)%js.

Definition reboundVel (this : t) (vel : num) : num :=
  (- vel / ((abs vel / _halfReboundVel this) + lit 1))%js.

Definition _posAtTrajTime (this : t) (trajTime vel : num) : num :=
  (_initPos this + (((_initVel this + vel) / lit 2) * trajTime))%js.

Definition _trajTimeAtDisp (this : t) (disp : num) : num :=
  let initVel := _initVel this in
  let accel := _accel this in
  ((abs initVel - sqrt ((initVel * initVel) - (lit 2 * accel * disp)))
   / accel)%js.

(** One boundary hit handled by [update]: the trajectory time of the hit, the
    velocity at the hit, and whether the computed hit time fell outside
    [[0, trajTime]], in which case it was replaced and [console.error] was
    called. *)
Record hit : Type := {
  hitTime : num;
  hitVel : num;
  reported : bool
}.

(** The result of one pass through the body of the [while] loop. *)
Inductive pass : Type :=
| Settled (pos vel : num)                     (* [newTraj] stays false *)
| NewTraj (this : t) (trajTime : num) (h : hit). (* [newTraj = true] *)

Definition update_pass (this : t) (trajTime : num) : pass :=
  let initVel := _initVel this in
  let upperPos := _upperPos this in
  let vel := _velAtTrajTime this trajTime in
  let changed :=
    (((initVel >=? lit 0) && (vel <? lit 0)) ||
     ((initVel <? lit 0) && (vel >? lit 0)))%js in
  let trajTime := if changed then _trajTimeAtStop this else trajTime in
  let vel := if changed then lit 0 else vel in
  let pos := _posAtTrajTime this trajTime vel in
  if ((pos <? lit 0) || (pos >? upperPos))%js then
    let disp :=
      if (pos <? lit 0)%js then _initPos this
      else (upperPos - _initPos this)%js in
    let hitTime0 := _trajTimeAtDisp this disp in
    let outside := negb ((hitTime0 >=? lit 0) && (hitTime0 <=? trajTime))%js in
    let hitTime := if outside then trajTime else hitTime0 in
    let hitVel := _velAtTrajTime this hitTime in
    NewTraj
      {| _halfReboundVel := _halfReboundVel this;
         _accel := _accel this;
         _upperPos := _upperPos this;
         _trajStartGlobalTime :=
           Some (toNumber (_trajStartGlobalTime this) + hitTime)%js;
         _initPos := if (pos <? lit 0)%js then lit 0 else upperPos;
         pos := BoundedMotion.pos this;
         _initVel := reboundVel this hitVel;
         vel := BoundedMotion.vel this |}
      (trajTime - hitTime)%js
      {| hitTime := hitTime; hitVel := hitVel; reported := outside |}
  else
    Settled pos vel.

(** The [while (newTraj === true)] loop.  It returns the object, the final
    local [pos] and [vel], and the hits in the order they happened. *)
Fixpoint update_loop (fuel : nat) (this : t) (trajTime : num)
    : option (t * num * num * list hit) :=
  match fuel with
  | O => None
  | S fuel' =>
      match update_pass this trajTime with
      | Settled pos vel => Some (this, pos, vel, [])
      | NewTraj this' trajTime' h =>
          match update_loop fuel' this' trajTime' with
          | Some (this'', pos, vel, hs) => Some (this'', pos, vel, h :: hs)
          | None => None
          end
      end
  end.

Definition set_pos_vel (this : t) (p v : num) : t :=
  {| _halfReboundVel := _halfReboundVel this;
     _accel := _accel this;
     _upperPos := _upperPos this;
     _trajStartGlobalTime := _trajStartGlobalTime this;
     _initPos := _initPos this;
     pos := p;
     _initVel := _initVel this;
     vel := v |}.

(** [update]: [None] when the fuel does not suffice, otherwise the thrown
    error, or the updated object with the hits handled on the way. *)
Definition update (fuel : nat) (this : t) (globalTime : num)
    : option (result (t * list hit)) :=
  let trajTime := (globalTime - toNumber (_trajStartGlobalTime this))%js in
  if negb (trajTime >=? lit 0)%js then Some (Throw RangeError)
  else
    match update_loop fuel this trajTime with
    | None => None
    | Some (this', pos, vel, hs) => Some (Ok (set_pos_vel this' pos vel, hs))
    end.

End BoundedMotion.

(* ================================================================= *)
(** ** The dodge controller *)

Module MovingButton.

(** The style classes of the button element that the controller toggles. *)
Record classes : Type := {
  shiny : bool;
  alert : bool;
  alert_fade : bool
}.

Record t : Type := mk {
  classList : classes;
  _leftPos : num;
  _topPos : num;
  _motionX : BoundedMotion.t;
  _motionY : BoundedMotion.t;
  _motionIntervalID : option nat;
  _thickner : num;
  _hitWidth : num;
  _hitHeight : num;
  _hit : bool;
  _hitImmune : bool;
  _mouseTracker : MouseTracker.t;
  _alertTimeoutID : option nat
}.

(** What the controller reads from the page while it handles one event:
    [Date.now()], [Math.random()], the bounding rectangle of the button, and
    the identifiers that [setInterval] and [setTimeout] return. *)
Record host : Type := {
  now : num;
  random : num;
  rect_x : num;
  rect_y : num;
  intervalID : nat;
  timeoutID : nat
}.

(** The fields of a click event that the controller reads. *)
Record click : Type := {
  clientX : num;
  clientY : num
}.

Definition set_classList (b : t) (c : classes) : t :=
  mk c (_leftPos b) (_topPos b) (_motionX b) (_motionY b)
     (_motionIntervalID b) (_thickner b) (_hitWidth b) (_hitHeight b)
     (_hit b) (_hitImmune b) (_mouseTracker b) (_alertTimeoutID b).

Definition set_leftPos (b : t) (x : num) : t :=
  mk (classList b) x (_topPos b) (_motionX b) (_motionY b)
     (_motionIntervalID b) (_thickner b) (_hitWidth b) (_hitHeight b)
     (_hit b) (_hitImmune b) (_mouseTracker b) (_alertTimeoutID b).

Definition set_topPos (b : t) (y : num) : t :=
  mk (classList b) (_leftPos b) y (_motionX b) (_motionY b)
     (_motionIntervalID b) (_thickner b) (_hitWidth b) (_hitHeight b)
     (_hit b) (_hitImmune b) (_mouseTracker b) (_alertTimeoutID b).

Definition set_motionX (b : t) (m : BoundedMotion.t) : t :=
  mk (classList b) (_leftPos b) (_topPos b) m (_motionY b)
     (_motionIntervalID b) (_thickner b) (_hitWidth b) (_hitHeight b)
     (_hit b) (_hitImmune b) (_mouseTracker b) (_alertTimeoutID b).

Definition set_motionY (b : t) (m : BoundedMotion.t) : t :=
  mk (classList b) (_leftPos b) (_topPos b) (_motionX b) m
     (_motionIntervalID b) (_thickner b) (_hitWidth b) (_hitHeight b)
     (_hit b) (_hitImmune b) (_mouseTracker b) (_alertTimeoutID b).

Definition set_motionIntervalID (b : t) (i : option nat) : t :=
  mk (classList b) (_leftPos b) (_topPos b) (_motionX b) (_motionY b)
     i (_thickner b) (_hitWidth b) (_hitHeight b)
     (_hit b) (_hitImmune b) (_mouseTracker b) (_alertTimeoutID b).

Definition set_hit (b : t) (h : bool) : t :=
  mk (classList b) (_leftPos b) (_topPos b) (_motionX b) (_motionY b)
     (_motionIntervalID b) (_thickner b) (_hitWidth b) (_hitHeight b)
     h (_hitImmune b) (_mouseTracker b) (_alertTimeoutID b).

Definition set_hitImmune (b : t) (h : bool) : t :=
  mk (classList b) (_leftPos b) (_topPos b) (_motionX b) (_motionY b)
     (_motionIntervalID b) (_thickner b) (_hitWidth b) (_hitHeight b)
     (_hit b) h (_mouseTracker b) (_alertTimeoutID b).

Definition set_mouseTracker (m : MouseTracker.t) (b : t) : t :=
  mk (classList b) (_leftPos b) (_topPos b) (_motionX b) (_motionY b)
     (_motionIntervalID b) (_thickner b) (_hitWidth b) (_hitHeight b)
     (_hit b) (_hitImmune b) m (_alertTimeoutID b).

Definition set_alertTimeoutID (b : t) (i : option nat) : t :=
  mk (classList b) (_leftPos b) (_topPos b) (_motionX b) (_motionY b)
     (_motionIntervalID b) (_thickner b) (_hitWidth b) (_hitHeight b)
     (_hit b) (_hitImmune b) (_mouseTracker b) i.

(** [classList.add] and [classList.remove] for the three classes. *)
Definition add_shiny (c : classes) : classes :=
  {| shiny := true; alert := alert c; alert_fade := alert_fade c |}.
Definition remove_shiny (c : classes) : classes :=
  {| shiny := false; alert := alert c; alert_fade := alert_fade c |}.
Definition add_alert (c : classes) : classes :=
  {| shiny := shiny c; alert := true; alert_fade := alert_fade c |}.
Definition remove_alert (c : classes) : classes :=
  {| shiny := shiny c; alert := false; alert_fade := alert_fade c |}.
Definition add_alert_fade (c : classes) : classes :=
  {| shiny := shiny c; alert := alert c; alert_fade := true |}.
Definition remove_alert_fade (c : classes) : classes :=
  {| shiny := shiny c; alert := alert c; alert_fade := false |}.

(** The geometry that the constructor reads from the page: the border
    widths of the container (already read as pixel lengths), the sizes of
    the button and of the container, the positions of the tracking area and
    of the container, and the scroll position of the window. *)
Record geometry : Type := {
  bottomW : num;
  topW : num;
  leftW : num;
  rightW : num;
  rectBtn_width : num;
  rectBtn_height : num;
  rectCont_width : num;
  rectCont_height : num;
  rectCont_x : num;
  rectCont_y : num;
  trackingRect_x : num;
  trackingRect_y : num;
  window_scrollX : num;
  window_scrollY : num
}.

(** The constructor; [c] is the class list that the button has in the
    page. *)
Definition new (g : geometry) (c : classes) : result t :=
  let horzBound :=
    floor (rectCont_width g - leftW g - rightW g - rectBtn_width g)%js in
  let vertBound :=
    floor (rectCont_height g - topW g - bottomW g - rectBtn_height g)%js in
  let leftPos := round (horzBound / lit 2)%js in
  let topPos := round (vertBound / lit 2)%js in
  do motionX <- BoundedMotion.new horzBound (lit 1000) (lit 25);
  do motionY <- BoundedMotion.new vertBound (lit 1000) (lit 25);
  do motionX <- BoundedMotion.setPos motionX leftPos;
  do motionY <- BoundedMotion.setPos motionY topPos;
  let thickner := lit 2 in
  Ok {| classList := add_shiny c;
        _leftPos := leftPos;
        _topPos := topPos;
        _motionX := motionX;
        _motionY := motionY;
        _motionIntervalID := None;
        _thickner := thickner;
        _hitWidth := (rectBtn_width g + (lit 2 * thickner))%js;
        _hitHeight := (rectBtn_height g + (lit 2 * thickner))%js;
        _hit := false;
        _hitImmune := false;
        _mouseTracker :=
          MouseTracker.new (trackingRect_x g) (trackingRect_y g)
            (rectCont_x g) (rectCont_y g) (leftW g) (topW g)
            (window_scrollX g) (window_scrollY g);
        _alertTimeoutID := None |}.

Definition _alertEnd (this : t) : t :=
  let this :=
    if alert (classList this)
    then set_classList this (add_alert_fade (remove_alert (classList this)))
    else this in
  set_hitImmune (set_alertTimeoutID this None) false.

Definition _getUnitVecAwayFrom (random posX posY : num) : num * num :=
  let mag := sqrt ((posX * posX) + (posY * posY))%js in
  if negb (mag >? lit 0)%js then
    (* choose a random direction *)
    let ang := (random * lit 2 * PI)%js in
    let posX := cos ang in
    let posY := sin ang in
    let mag := lit 1 in
    ((- (posX / mag))%js, (- (posY / mag))%js)
  else
    ((- (posX / mag))%js, (- (posY / mag))%js).

Definition _setLeftPos (this : t) (leftPos : num) : t :=
  set_leftPos this (round leftPos).

Definition _setTopPos (this : t) (topPos : num) : t :=
  set_topPos this (round topPos).

Definition _giveVel (this : t) (velX velY now : num) (h : host) : result t :=
  let globalTime := (now / lit 1000)%js in
  (* use the pixel positions, rather than the calculated position *)
  do motionX <- BoundedMotion.setPos (_motionX this) (_leftPos this);
  do motionY <- BoundedMotion.setPos (_motionY this) (_topPos this);
  do motionX <- BoundedMotion.setVel motionX globalTime velX;
  do motionY <- BoundedMotion.setVel motionY globalTime velY;
  let this := set_motionY (set_motionX this motionX) motionY in
  (* the old interval, if any, is cleared and a new one installed *)
  let this := set_classList this (remove_shiny (classList this)) in
  Ok (set_motionIntervalID this (Some (intervalID h))).

Definition _clicked (ev : click) (h : host) (this : t) : result t :=
  let thickner := _thickner this in
  let '(posX, posY) :=
    if ((clientX ev === lit 0) && (clientY ev === lit 0))%js then
      (lit 0, lit 0)
    else
      (((clientX ev - rect_x h + thickner) - (_hitWidth this / lit 2))%js,
       ((clientY ev - rect_y h + thickner) - (_hitHeight this / lit 2))%js) in
  let vec := _getUnitVecAwayFrom (random h) posX posY in
  (* make immune to being hit so it can escape *)
  let this := set_hitImmune this true in
  (* move away from the mouse *)
  do this <- _giveVel this (lit 4000 * fst vec)%js (lit 4000 * snd vec)%js
               (now h) h;
  (* on alert *)
  let this :=
    set_classList this (add_alert (remove_alert_fade (classList this))) in
  Ok (set_alertTimeoutID this (Some (timeoutID h))).

Definition _entrySides (this : t) (x y vX vY : num) : bool * bool :=
  if ((vX === lit 0) || (vY === lit 0))%js then
    ((vY === lit 0)%js, (vX === lit 0)%js)
  else
    let lhs :=
      (abs vX * (if vY >? lit 0 then y else (_hitHeight this - y)))%js in
    let rhs :=
      (abs vY * (if vX >? lit 0 then x else (_hitWidth this - x)))%js in
    ((lhs >=? rhs)%js, (lhs <=? rhs)%js).

Definition _minVel (vel : num) : num :=
  let min := lit 20 in
  if (abs vel <? min)%js then
    if (vel === lit 0)%js then lit 0
    else if (vel >? lit 0)%js then min
    else (- min)%js
  else vel.

Definition _detectHit (h : host) (this : t) : result t :=
  let mouseTracker := _mouseTracker this in
  let thickner := _thickner this in
  (* posY or posX may be unknown, giving NaN *)
  let mouseY := (MouseTracker.posY mouseTracker - _topPos this + thickner)%js in
  let mouseX := (MouseTracker.posX mouseTracker - _leftPos this + thickner)%js in
  let hit :=
    (Bool.eqb (_hitImmune this) false && (mouseY >=? lit 0) &&
     (mouseX >=? lit 0) && (mouseY <=? _hitHeight this) &&
     (mouseX <=? _hitWidth this))%js in
  do this <-
    (if negb (_hit this) && hit then
       let now := now h in
       let motionX := _motionX this in
       let motionY := _motionY this in
       let mouseVelX := MouseTracker.velX mouseTracker now in
       let mouseVelY := MouseTracker.velY mouseTracker now in
       (* mouse velocity in the frame of the button *)
       let relVelX := (mouseVelX - BoundedMotion.vel motionX)%js in
       let relVelY := (mouseVelY - BoundedMotion.vel motionY)%js in
       let entry := _entrySides this mouseX mouseY relVelX relVelY in
       let velX :=
         if fst entry
         then (BoundedMotion.reboundVel motionX (- relVelX) + mouseVelX)%js
         else (BoundedMotion.vel motionX + (mouseVelX / lit 2))%js in
       let velY :=
         if snd entry
         then (BoundedMotion.reboundVel motionY (- relVelY) + mouseVelY)%js
         else (BoundedMotion.vel motionY + (mouseVelY / lit 2))%js in
       let velX := _minVel velX in
       let velY := _minVel velY in
       let min := lit 30 in
       let mag := sqrt ((velX * velX) + (velY * velY))%js in
       let '(velX, velY) :=
         if negb (mag >=? min)%js then
           if negb (mag >? lit 0)%js then
             (* move away from the mouse, relative to the center *)
             let halfWidth := (_hitWidth this / lit 2)%js in
             let halfHeight := (_hitHeight this / lit 2)%js in
             let posX := (mouseX - halfWidth)%js in
             let posY := (mouseY - halfHeight)%js in
             let vec := _getUnitVecAwayFrom (random h) posX posY in
             let depthX := (halfWidth - abs posX)%js in
             let depthY := (halfHeight - abs posY)%js in
             let depth := sqrt ((depthX * depthX) + (depthY * depthY))%js in
             let vel := max min (depth * lit 10)%js in
             ((vel * fst vec)%js, (vel * snd vec)%js)
           else
             (* boost to min *)
             ((velX * (min / mag))%js, (velY * (min / mag))%js)
         else (velX, velY) in
       _giveVel this velX velY now h
     else Ok this);
  Ok (set_hit this hit).

(** [_updateMotion], the interval callback.  [fuel] bounds the loops of the
    two [update] calls. *)
Definition _updateMotion (fuel : nat) (h : host) (this : t)
    : option (result t) :=
  let globalTime := (now h / lit 1000)%js in
  let stepX :=
    if negb (BoundedMotion.vel (_motionX this) === lit 0)%js then
      match BoundedMotion.update fuel (_motionX this) globalTime with
      | None => None
      | Some (Throw e) => Some (Throw e)
      | Some (Ok (m, _)) =>
          Some (Ok (_setLeftPos (set_motionX this m) (BoundedMotion.pos m)))
      end
    else Some (Ok this) in
  match stepX with
  | None => None
  | Some (Throw e) => Some (Throw e)
  | Some (Ok this) =>
      let stepY :=
        if negb (BoundedMotion.vel (_motionY this) === lit 0)%js then
          match BoundedMotion.update fuel (_motionY this) globalTime with
          | None => None
          | Some (Throw e) => Some (Throw e)
          | Some (Ok (m, _)) =>
              Some (Ok (_setTopPos (set_motionY this m) (BoundedMotion.pos m)))
          end
        else Some (Ok this) in
      match stepY with
      | None => None
      | Some (Throw e) => Some (Throw e)
      | Some (Ok this) =>
          let this :=
            if ((BoundedMotion.vel (_motionX this) === lit 0) &&
                (BoundedMotion.vel (_motionY this) === lit 0))%js then
              (* when the button stops moving, go shiny again *)
              set_classList (set_motionIntervalID this None)
                (add_shiny (remove_alert_fade (classList this)))
            else this in
          Some (_detectHit h this)
      end
  end.

(** The tracker's methods bound to the button that owns it: the position
    handler given to the tracker is [_detectHit]. *)
Definition on_mousemove (ev : MouseTracker.event) (ht : MouseTracker.host)
    (h : host) (this : t) : result t :=
  MouseTracker._updateFromMouseMove _mouseTracker set_mouseTracker
    (_detectHit h) ev ht this.

Definition on_mouseover (ev : MouseTracker.event) (ht : MouseTracker.host)
    (h : host) (this : t) : result t :=
  MouseTracker._updateFromMouseOver _mouseTracker set_mouseTracker
    (_detectHit h) ev ht this.

Definition on_mouseleave (ev : MouseTracker.event) (ht : MouseTracker.host)
    (h : host) (this : t) : result t :=
  MouseTracker._updateFromMouseLeave _mouseTracker set_mouseTracker
    (_detectHit h) ev ht this.

Definition on_scroll (ev : MouseTracker.event) (ht : MouseTracker.host)
    (h : host) (this : t) : result t :=
  MouseTracker._updateFromScroll _mouseTracker set_mouseTracker
    (_detectHit h) ev ht this.

Definition on_resize (ev : MouseTracker.event) (ht : MouseTracker.host)
    (h : host) (this : t) : result t :=
  MouseTracker._updateFromResize _mouseTracker set_mouseTracker
    (_detectHit h) ev ht this.

End MovingButton.

(* ================================================================= *)
(** * Properties *)

Local Open Scope R_scope.

(** ** Computing with [num] *)

Lemma Rltb_true (a b : R) : a < b -> Rltb a b = true.
Proof. intros H. unfold Rltb. destruct (Rlt_dec a b); [reflexivity | contradiction]. Qed.

Lemma Rltb_false (a b : R) : b <= a -> Rltb a b = false.
Proof. intros H. unfold Rltb. destruct (Rlt_dec a b); [lra | reflexivity]. Qed.

Lemma Rltb_iff (a b : R) : Rltb a b = true <-> a < b.
Proof. unfold Rltb. destruct (Rlt_dec a b); split; intros; try easy. Qed.

Lemma Reqb_true (a b : R) : a = b -> Reqb a b = true.
Proof. intros H. unfold Reqb. destruct (Req_dec_T a b); [reflexivity | contradiction]. Qed.

Lemma Reqb_false (a b : R) : a <> b -> Reqb a b = false.
Proof. intros H. unfold Reqb. destruct (Req_dec_T a b); [contradiction | reflexivity]. Qed.


Lemma div_Fin (a b : R) : b <> 0 -> (Fin a / Fin b)%js = Fin (a / b).
Proof. intros H. simpl. now rewrite (Reqb_false _ _ H). Qed.

Lemma leb_Fin_iff (a b : R) : (Fin a <=? Fin b)%js = true <-> a <= b.
Proof.
  unfold leb; simpl. unfold Rltb, Reqb.
  destruct (Rlt_dec a b), (Req_dec_T a b); simpl; split; intros; try easy; lra.
Qed.

Lemma geb_Fin_iff (a b : R) : (Fin a >=? Fin b)%js = true <-> b <= a.
Proof. unfold geb. apply leb_Fin_iff. Qed.

Lemma ltb_Fin_iff (a b : R) : (Fin a <? Fin b)%js = true <-> a < b.
Proof. apply Rltb_iff. Qed.

Lemma gtb_Fin_iff (a b : R) : (Fin a >? Fin b)%js = true <-> b < a.
Proof. apply Rltb_iff. Qed.


Lemma Fin_eq (a b : R) : a = b -> Fin a = Fin b.
Proof. now intros ->. Qed.

(* ----------------------------------------------------------------- *)
(** ** The rebound function *)

Section Rebound.

Variable this : BoundedMotion.t.
Variable H : R.
Hypothesis H_pos : 0 < H.
Hypothesis H_this : BoundedMotion._halfReboundVel this = Fin H.

(** On a finite velocity the rebound is the real number of the formula. *)
Lemma reboundVel_Fin (v : R) :
  BoundedMotion.reboundVel this (Fin v) = Fin (- v / (Rabs v / H + 1)).
Proof.
  unfold BoundedMotion.reboundVel. rewrite H_this.
  pose proof (Rabs_pos v) as Hv.
  assert (0 <= Rabs v / H) by (apply Rle_mult_inv_pos; lra).
  unfold abs, neg, lit. rewrite div_Fin by lra.
  change (Fin (Rabs v / H) + Fin 1)%js with (Fin (Rabs v / H + 1)).
  apply div_Fin. lra.
Qed.











End Rebound.

(* ----------------------------------------------------------------- *)
(** ** One pass of the loop of [update], on numbers *)

Module Pass.

Import BoundedMotion.

(** The velocity on the current trajectory and the rebound, as real
    functions. *)
Definition velAtR (a v t : R) : R :=
  if Rle_dec 0 v then v - a * t else v + a * t.

Definition reboundR (H v : R) : R := - v / (Rabs v / H + 1).

(** The second half of the body of the loop, from the computation of [pos]
    on, with the trajectory time and velocity that the first half chose. *)
Definition pass_tail (this : t) (trajTime vel : num) : pass :=
  let upperPos := _upperPos this in
  let pos := _posAtTrajTime this trajTime vel in
  if ((pos <? lit 0) || (pos >? upperPos))%js then
    let disp :=
      if (pos <? lit 0)%js then _initPos this
      else (upperPos - _initPos this)%js in
    let hitTime0 := _trajTimeAtDisp this disp in
    let outside := negb ((hitTime0 >=? lit 0) && (hitTime0 <=? trajTime))%js in
    let hitTime := if outside then trajTime else hitTime0 in
    let hitVel := _velAtTrajTime this hitTime in
    NewTraj
      {| _halfReboundVel := _halfReboundVel this;
         _accel := _accel this;
         _upperPos := _upperPos this;
         _trajStartGlobalTime :=
           Some (toNumber (_trajStartGlobalTime this) + hitTime)%js;
         _initPos := if (pos <? lit 0)%js then lit 0 else upperPos;
         pos := BoundedMotion.pos this;
         _initVel := reboundVel this hitVel;
         vel := BoundedMotion.vel this |}
      (trajTime - hitTime)%js
      {| hitTime := hitTime; hitVel := hitVel; reported := outside |}
  else
    Settled pos vel.

Definition changed (this : t) (trajTime : num) : bool :=
  let initVel := _initVel this in
  let vel := _velAtTrajTime this trajTime in
  (((initVel >=? lit 0) && (vel <? lit 0)) ||
   ((initVel <? lit 0) && (vel >? lit 0)))%js.

Lemma update_pass_split (this : t) (trajTime : num) :
  update_pass this trajTime =
  pass_tail this
    (if changed this trajTime then _trajTimeAtStop this else trajTime)
    (if changed this trajTime then lit 0 else _velAtTrajTime this trajTime).
Proof. reflexivity. Qed.

Section Finite.

Variables H a : R.
Hypothesis H_pos : 0 < H.
Hypothesis a_pos : 0 < a.
Variable U : num.
Variable ts : option num.
Variable p : num.
Variable pos0 vel0 : num.
Variable v : R.

Let this : t := mk (Fin H) (Fin a) U ts p pos0 (Fin v) vel0.

Lemma velAt_Fin (x : R) : _velAtTrajTime this (Fin x) = Fin (velAtR a v x).
Proof.
  unfold _velAtTrajTime, velAtR, this. cbn [_initVel _accel].
  destruct (Rle_dec 0 v) as [Hv|Hv].
  - assert (E : (Fin v >=? lit 0)%js = true) by (apply geb_Fin_iff; lra).
    now rewrite E.
  - assert (E : (Fin v >=? lit 0)%js = false).
    { apply not_true_is_false. intros E. now apply geb_Fin_iff in E. }
    now rewrite E.
Qed.

Lemma stop_Fin : _trajTimeAtStop this = Fin (Rabs v / a).
Proof.
  unfold _trajTimeAtStop, this. cbn [_initVel _accel abs].
  apply div_Fin. lra.
Qed.

Lemma rebound_Fin (x : R) : reboundVel this (Fin x) = Fin (reboundR H x).
Proof. now apply reboundVel_Fin. Qed.

(** The velocity changes sign within [x] exactly when [x] is past the stop. *)
Lemma changed_Fin (x : R) : changed this (Fin x) = true <-> Rabs v < a * x.
Proof.
  unfold changed. rewrite velAt_Fin. unfold this. cbn [_initVel].
  rewrite orb_true_iff, !andb_true_iff.
  rewrite (geb_Fin_iff v 0), (gtb_Fin_iff (velAtR a v x) 0),
    (ltb_Fin_iff (velAtR a v x) 0), (ltb_Fin_iff v 0).
  unfold velAtR. destruct (Rle_dec 0 v) as [Hv|Hv].
  - rewrite Rabs_pos_eq by lra. split; [intros [[_ Hc]|[Hc _]]|intros Hc]; lra.
  - rewrite Rabs_left by lra. split; [intros [[Hc _]|[_ Hc]]|intros Hc]; lra.
Qed.

Lemma changed_PInf : changed this PInf = true.
Proof.
  unfold changed, _velAtTrajTime, this. cbn [_initVel _accel].
  assert (E : (Fin a * PInf)%js = PInf).
  { simpl. rewrite (Reqb_false a 0) by lra.
    now rewrite (Rltb_false a 0) by lra. }
  rewrite E.
  destruct (Rle_dec 0 v) as [Hv|Hv].
  - assert (E' : (Fin v >=? lit 0)%js = true) by (apply geb_Fin_iff; lra).
    now rewrite E'.
  - assert (E' : (Fin v >=? lit 0)%js = false).
    { apply not_true_is_false. intros E'. now apply geb_Fin_iff in E'. }
    assert (E'' : (Fin v <? lit 0)%js = true) by (apply ltb_Fin_iff; lra).
    now rewrite E', E''.
Qed.

Lemma velAtR_stop : velAtR a v (Rabs v / a) = 0.
Proof.
  assert (a * (Rabs v / a) = Rabs v) as E by (field; lra).
  unfold velAtR. destruct (Rle_dec 0 v).
  - rewrite E, Rabs_pos_eq; lra.
  - rewrite E, Rabs_left; lra.
Qed.

(** The time and velocity chosen by the first half of the body: a finite
    time no later than the stop, and the velocity on the trajectory then. *)
Lemma clamp_Fin (T : num) :
  (exists x, T = Fin x /\ 0 <= x) \/ T = PInf ->
  exists tc,
    (if changed this T then _trajTimeAtStop this else T) = Fin tc /\
    (if changed this T then lit 0 else _velAtTrajTime this T)
      = Fin (velAtR a v tc) /\
    0 <= tc /\ a * tc <= Rabs v /\
    (forall x, T = Fin x -> tc <= x /\ (a * x <= Rabs v -> tc = x)).
Proof.
  assert (Hstop : 0 <= Rabs v / a).
  { apply Rle_mult_inv_pos; [apply Rabs_pos | lra]. }
  assert (Hstop' : a * (Rabs v / a) = Rabs v) by (field; lra).
  intros [(x & -> & Hx) | ->].
  - destruct (changed this (Fin x)) eqn:E.
    + apply changed_Fin in E.
      exists (Rabs v / a). rewrite stop_Fin, velAtR_stop.
      split; [reflexivity|]. split; [reflexivity|].
      split; [lra|]. split; [lra|].
      intros y [= <-]. split; [|lra].
      apply Rmult_le_reg_l with a; lra.
    + assert (Hc : a * x <= Rabs v).
      { apply Rnot_lt_le. intros Hc. apply changed_Fin in Hc. congruence. }
      exists x. rewrite velAt_Fin.
      split; [reflexivity|]. split; [reflexivity|].
      split; [lra|]. split; [lra|].
      intros y [= <-]. split; [lra|reflexivity].
  - exists (Rabs v / a). rewrite changed_PInf, stop_Fin, velAtR_stop.
    split; [reflexivity|]. split; [reflexivity|].
    split; [lra|]. split; [lra|]. discriminate.
Qed.

(** The hit time after the range test is a finite time in [[0, trajTime]]. *)
Lemma hitTime_Fin (x : num) (tc : R) :
  0 <= tc ->
  exists ht,
    (if negb ((x >=? lit 0) && (x <=? Fin tc))%js then Fin tc else x) = Fin ht /\
    0 <= ht <= tc /\
    (negb ((x >=? lit 0) && (x <=? Fin tc))%js = false -> x = Fin ht) /\
    (negb ((x >=? lit 0) && (x <=? Fin tc))%js = true -> ht = tc).
Proof.
  intros Htc.
  destruct ((x >=? lit 0) && (x <=? Fin tc))%js eqn:E; simpl.
  - apply andb_true_iff in E as [E1 E2].
    destruct x as [| | |r]; try discriminate.
    apply geb_Fin_iff in E1. apply leb_Fin_iff in E2.
    exists r. repeat split; try lra; easy.
  - exists tc. repeat split; try lra; easy.
Qed.

Lemma posAt_Fin (p0 tc vc : R) :
  p = Fin p0 ->
  _posAtTrajTime this (Fin tc) (Fin vc) = Fin (p0 + (v + vc) / 2 * tc).
Proof.
  intros Hp. unfold _posAtTrajTime, this. cbn [_initPos _initVel].
  rewrite Hp. cbn [add]. unfold lit. rewrite div_Fin by lra. reflexivity.
Qed.


(** One pass from a finite position: what the first half chooses, and the
    outcome of the boundary test. *)
Lemma pass_Fin (p0 : R) (T : num) :
  p = Fin p0 ->
  (exists x, T = Fin x /\ 0 <= x) \/ T = PInf ->
  exists tc,
    0 <= tc /\ a * tc <= Rabs v /\
    (forall x, T = Fin x -> tc <= x /\ (a * x <= Rabs v -> tc = x)) /\
    let vc := velAtR a v tc in
    let pos := p0 + (v + vc) / 2 * tc in
    if Rltb pos 0 || (U <? Fin pos)%js then
      exists ht,
        0 <= ht <= tc /\
        let disp := if Rltb pos 0 then Fin p0 else (U - Fin p0)%js in
        let outside :=
          negb ((_trajTimeAtDisp this disp >=? lit 0) &&
                (_trajTimeAtDisp this disp <=? Fin tc))%js in
        (outside = false -> _trajTimeAtDisp this disp = Fin ht) /\
        (outside = true -> ht = tc) /\
        update_pass this T =
        NewTraj
          (mk (Fin H) (Fin a) U (Some (toNumber ts + Fin ht)%js)
              (if Rltb pos 0 then lit 0 else U) pos0
              (Fin (reboundR H (velAtR a v ht))) vel0)
          (Fin (tc - ht))
          {| hitTime := Fin ht; hitVel := Fin (velAtR a v ht);
             reported := outside |}
    else update_pass this T = Settled (Fin pos) (Fin vc).
Proof.
  intros Hp HT.
  destruct (clamp_Fin T HT) as (tc & E1 & E2 & Htc & Hstop & HtcT).
  exists tc. split; [exact Htc|]. split; [exact Hstop|]. split; [exact HtcT|].
  intros vc pos.
  rewrite update_pass_split, E1, E2. unfold pass_tail.
  rewrite (posAt_Fin p0 tc (velAtR a v tc) Hp). fold vc pos.
  change (_upperPos this) with U. change (_initPos this) with p.
  rewrite Hp.
  change (Fin pos <? lit 0)%js with (Rltb pos 0).
  change (Fin pos >? U)%js with (U <? Fin pos)%js.
  destruct (Rltb pos 0 || (U <? Fin pos)%js) eqn:B.
  - set (disp := if Rltb pos 0 then Fin p0 else (U - Fin p0)%js).
    destruct (hitTime_Fin (_trajTimeAtDisp this disp) tc Htc)
      as (ht & Eh & Hht & Hin & Hout).
    exists ht. split; [exact Hht|]. split; [exact Hin|]. split; [exact Hout|].
    rewrite Eh, velAt_Fin, rebound_Fin. reflexivity.
  - reflexivity.
Qed.

End Finite.

(** An engine whose numeric fields are all finite. *)
Definition eng (H a u : R) (ts : option num) (p v : R) (pos0 vel0 : num) : t :=
  mk (Fin H) (Fin a) (Fin u) ts (Fin p) pos0 (Fin v) vel0.



Section Walls.

Variables H a u : R.
Hypothesis H_pos : 0 < H.
Hypothesis a_pos : 0 < a.
Hypothesis u_pos : 0 < u.
Variables pos0 vel0 : num.






End Walls.

(** *** Passes in closed form *)

Section Closed.

Variables H a u : R.
Hypothesis H_pos : 0 < H.
Hypothesis a_pos : 0 < a.
Variables pos0 vel0 : num.

(** The hit time for a displacement that the particle can reach. *)
Lemma trajTimeAtDisp_reach (ts : option num) (p v d : R) :
  0 <= v * v - 2 * a * d ->
  _trajTimeAtDisp (eng H a u ts p v pos0 vel0) (Fin d)
  = Fin ((Rabs v - R_sqrt.sqrt (v * v - 2 * a * d)) / a).
Proof.
  intros Hd. unfold _trajTimeAtDisp, eng. cbn [_initVel _accel].
  unfold lit. cbn [mul abs sub add neg].
  change (Fin (v * v + - (2 * a * d))) with (Fin (v * v - 2 * a * d)).
  cbn [sqrt]. rewrite Rltb_false by lra. cbn [add neg].
  rewrite div_Fin by lra. reflexivity.
Qed.

(** Moving up and past the upper wall within the time: the particle hits
    the wall at the lower root, with the speed [q] that is left after the
    distance, and rebounds; the hit time is not replaced. *)
Lemma pass_hit_upper (ts : option num) (p v T : R) :
  0 <= p <= u -> 0 < v -> 0 <= T -> a * T <= v ->
  u < p + (v + (v - a * T)) / 2 * T ->
  let q := R_sqrt.sqrt (v * v - 2 * a * (u - p)) in
  let ht := (v - q) / a in
  0 < q <= v /\ 0 <= ht < T /\
  update_pass (eng H a u ts p v pos0 vel0) (Fin T)
  = NewTraj (eng H a u (Some (toNumber ts + Fin ht)%js) u (reboundR H q)
               pos0 vel0)
      (Fin (T - ht))
      {| hitTime := Fin ht; hitVel := Fin q; reported := false |}.
Proof.
  intros Hp Hv HT HaT Hpos q ht.
  assert (Hdisc : 0 < v * v - 2 * a * (u - p)) by nra.
  assert (Hq : 0 < q) by (apply sqrt_lt_R0; exact Hdisc).
  pose proof (sqrt_sqrt (v * v - 2 * a * (u - p)) ltac:(lra)) as Hqq.
  fold q in Hqq.
  assert (Hqv : q <= v) by nra.
  assert (Hqlo : v - a * T < q) by nra.
  assert (Haht : a * ht = v - q) by (unfold ht; field; lra).
  assert (Hht : 0 <= ht < T) by (split; nra).
  split; [lra|]. split; [exact Hht|].
  assert (HT0 : (exists x, Fin T = Fin x /\ 0 <= x) \/ Fin T = PInf).
  { left. exists T. split; [reflexivity|lra]. }
  destruct (pass_Fin H a H_pos a_pos (Fin u) ts (Fin p) pos0 vel0 v p (Fin T)
              eq_refl HT0) as (tc & Htc & Hstop & HtcT & Hpass).
  destruct (HtcT T eq_refl) as [_ Etc].
  rewrite Rabs_pos_eq in Etc by lra. specialize (Etc HaT). subst tc.
  cbv zeta in Hpass. fold (eng H a u ts p v pos0 vel0) in Hpass.
  assert (Evel : velAtR a v T = v - a * T).
  { unfold velAtR. destruct (Rle_dec 0 v); lra. }
  rewrite Evel in Hpass.
  rewrite (Rltb_false (p + (v + (v - a * T)) / 2 * T) 0) in Hpass by nra.
  change (Fin u <? Fin (p + (v + (v - a * T)) / 2 * T))%js
    with (Rltb u (p + (v + (v - a * T)) / 2 * T)) in Hpass.
  rewrite Rltb_true in Hpass by exact Hpos. cbn [orb] in Hpass.
  change (Fin u - Fin p)%js with (Fin (u - p)) in Hpass.
  rewrite trajTimeAtDisp_reach in Hpass by lra.
  rewrite Rabs_pos_eq in Hpass by lra. fold q ht in Hpass.
  assert (Ein : ((Fin ht >=? lit 0) && (Fin ht <=? Fin T))%js = true).
  { apply andb_true_iff. split; [apply geb_Fin_iff|apply leb_Fin_iff]; lra. }
  rewrite Ein in Hpass. cbn [negb] in Hpass.
  destruct Hpass as (ht' & _ & Eraw & _ & ->).
  specialize (Eraw eq_refl). injection Eraw as <-.
  assert (Ehv : velAtR a v ht = q).
  { unfold velAtR. destruct (Rle_dec 0 v); lra. }
  rewrite Ehv. reflexivity.
Qed.

(** Moving down and past the lower wall within the time. *)
Lemma pass_hit_lower (ts : option num) (p v T : R) :
  0 <= p <= u -> v < 0 -> 0 <= T -> a * T <= - v ->
  p + (v + (v + a * T)) / 2 * T < 0 ->
  let q := R_sqrt.sqrt (v * v - 2 * a * p) in
  let ht := (- v - q) / a in
  0 < q <= - v /\ 0 <= ht < T /\
  update_pass (eng H a u ts p v pos0 vel0) (Fin T)
  = NewTraj (eng H a u (Some (toNumber ts + Fin ht)%js) 0 (reboundR H (- q))
               pos0 vel0)
      (Fin (T - ht))
      {| hitTime := Fin ht; hitVel := Fin (- q); reported := false |}.
Proof.
  intros Hp Hv HT HaT Hpos q ht.
  assert (Hdisc : 0 < v * v - 2 * a * p) by nra.
  assert (Hq : 0 < q) by (apply sqrt_lt_R0; exact Hdisc).
  pose proof (sqrt_sqrt (v * v - 2 * a * p) ltac:(lra)) as Hqq.
  fold q in Hqq.
  assert (Hqv : q <= - v) by nra.
  assert (Hqlo : - v - a * T < q) by nra.
  assert (Haht : a * ht = - v - q) by (unfold ht; field; lra).
  assert (Hht : 0 <= ht < T) by (split; nra).
  split; [lra|]. split; [exact Hht|].
  assert (HT0 : (exists x, Fin T = Fin x /\ 0 <= x) \/ Fin T = PInf).
  { left. exists T. split; [reflexivity|lra]. }
  destruct (pass_Fin H a H_pos a_pos (Fin u) ts (Fin p) pos0 vel0 v p (Fin T)
              eq_refl HT0) as (tc & Htc & Hstop & HtcT & Hpass).
  destruct (HtcT T eq_refl) as [_ Etc].
  rewrite Rabs_left in Etc by lra. specialize (Etc HaT). subst tc.
  cbv zeta in Hpass. fold (eng H a u ts p v pos0 vel0) in Hpass.
  assert (Evel : velAtR a v T = v + a * T).
  { unfold velAtR. destruct (Rle_dec 0 v); lra. }
  rewrite Evel in Hpass.
  rewrite (Rltb_true (p + (v + (v + a * T)) / 2 * T) 0) in Hpass by exact Hpos.
  cbn [orb] in Hpass.
  rewrite trajTimeAtDisp_reach in Hpass by lra.
  rewrite Rabs_left in Hpass by lra. fold q ht in Hpass.
  assert (Ein : ((Fin ht >=? lit 0) && (Fin ht <=? Fin T))%js = true).
  { apply andb_true_iff. split; [apply geb_Fin_iff|apply leb_Fin_iff]; lra. }
  rewrite Ein in Hpass. cbn [negb] in Hpass.
  destruct Hpass as (ht' & _ & Eraw & _ & ->).
  specialize (Eraw eq_refl). injection Eraw as <-.
  assert (Ehv : velAtR a v ht = - q).
  { unfold velAtR. destruct (Rle_dec 0 v); lra. }
  rewrite Ehv. reflexivity.
Qed.

(** Staying within the walls for the whole time, short of the stop. *)
Lemma pass_settles (ts : option num) (p v T : R) :
  0 <= T -> a * T <= Rabs v ->
  0 <= p + (v + velAtR a v T) / 2 * T <= u ->
  update_pass (eng H a u ts p v pos0 vel0) (Fin T)
  = Settled (Fin (p + (v + velAtR a v T) / 2 * T)) (Fin (velAtR a v T)).
Proof.
  intros HT HaT Hpos.
  assert (HT0 : (exists x, Fin T = Fin x /\ 0 <= x) \/ Fin T = PInf).
  { left. exists T. split; [reflexivity|lra]. }
  destruct (pass_Fin H a H_pos a_pos (Fin u) ts (Fin p) pos0 vel0 v p (Fin T)
              eq_refl HT0) as (tc & Htc & Hstop & HtcT & Hpass).
  destruct (HtcT T eq_refl) as [_ Etc]. specialize (Etc HaT). subst tc.
  cbv zeta in Hpass. fold (eng H a u ts p v pos0 vel0) in Hpass.
  rewrite Rltb_false in Hpass by lra.
  change (Fin u <? Fin (p + (v + velAtR a v T) / 2 * T))%js
    with (Rltb u (p + (v + velAtR a v T) / 2 * T)) in Hpass.
  rewrite Rltb_false in Hpass by lra. exact Hpass.
Qed.

End Closed.

(** *** The loop *)

Lemma update_loop_mono (fuel fuel' : nat) (this : t) (T : num) r :
  (fuel <= fuel')%nat ->
  update_loop fuel this T = Some r -> update_loop fuel' this T = Some r.
Proof.
  revert fuel' this T r.
  induction fuel as [|fuel IH]; intros fuel' this T r Hle E; [discriminate|].
  destruct fuel' as [|fuel']; [lia|].
  simpl in *. destruct (update_pass this T) as [pos vel|this' T' h]; [exact E|].
  destruct (update_loop fuel this' T') as [[[[m q] w] hs]|] eqn:E'; [|discriminate].
  rewrite (IH fuel' this' T' _ ltac:(lia) E'). exact E.
Qed.

Lemma update_fuel_mono (fuel fuel' : nat) (this : t) (t0 : num) r :
  (fuel <= fuel')%nat ->
  update fuel this t0 = Some (Ok r) -> update fuel' this t0 = Some (Ok r).
Proof.
  intros Hle. unfold update.
  destruct (negb (t0 - toNumber (_trajStartGlobalTime this) >=? lit 0)%js);
    [discriminate|].
  destruct (update_loop fuel this (t0 - toNumber (_trajStartGlobalTime this))%js)
    as [[[[m q] w] hs]|] eqn:E; [|discriminate].
  rewrite (update_loop_mono fuel fuel' _ _ _ Hle E). auto.
Qed.


Section Loop.

Variables H a u : R.
Hypothesis H_pos : 0 < H.
Hypothesis a_pos : 0 < a.
Hypothesis u_pos : 0 < u.
Variables pos0 vel0 : num.




End Loop.

(** *** The state invariant of the engine *)

Definition in_range (U x : num) : Prop :=
  (lit 0 <=? x)%js = true /\ (x <=? U)%js = true.

(** The configuration is the one given to the constructor, the initial
    velocity is finite, and the initial position is unset or in range. *)
Record valid (U : num) (this : t) : Prop := {
  valid_H : exists H, _halfReboundVel this = Fin H /\ 0 < H;
  valid_a : exists a, _accel this = Fin a /\ 0 < a;
  valid_U : _upperPos this = U /\ (U >? lit 0)%js = true;
  valid_v : exists v, _initVel this = Fin v;
  valid_p : _initPos this = NaN \/ in_range U (_initPos this)
}.









Lemma eqb_sym (x y : num) : (x === y)%js = (y === x)%js.
Proof.
  destruct x, y; try reflexivity. cbn. unfold Reqb.
  destruct (Req_dec_T r r0), (Req_dec_T r0 r); congruence.
Qed.

Lemma checkRange_closed (p U : num) :
  checkRange p (lit 0) true U true = Ok tt <-> in_range U p.
Proof.
  unfold checkRange, in_range, leb, gtb. cbn [andb orb].
  rewrite (eqb_sym (lit 0) p).
  destruct ((lit 0 <? p)%js || (p === lit 0)%js), ((p <? U)%js || (p === U)%js);
    cbn; split; intros E; try easy; destruct E; discriminate.
Qed.


Lemma checkRange_positive (x : num) :
  checkRange x (lit 0) false PInf false = Ok tt <-> exists r, x = Fin r /\ 0 < r.
Proof.
  unfold checkRange. cbn [andb orb]. rewrite !orb_false_r.
  destruct x as [| | |r]; cbn; split; intros E; try easy;
    try (destruct E as (? & ? & ?); discriminate).
  - exists r. split; [reflexivity|]. unfold Rltb in E.
    destruct (Rlt_dec 0 r); [assumption|]. cbn in E. discriminate.
  - destruct E as (? & [= <-] & ?). now rewrite Rltb_true.
Qed.




End Pass.

(* ----------------------------------------------------------------- *)
(** ** Sequences of calls on an engine *)

Module Calls.

Import BoundedMotion Pass.

Inductive call : Type :=
| SetPos (initPos : num)
| SetVel (globalTime initVel : num)
| Update (globalTime : num).

(** A call that returns normally, from the object before to the object
    after. *)
Definition exec (this : t) (c : call) (this' : t) : Prop :=
  match c with
  | SetPos p => setPos this p = Ok this'
  | SetVel t0 v => setVel this t0 v = Ok this'
  | Update t0 => exists fuel hs, update fuel this t0 = Some (Ok (this', hs))
  end.

Inductive run : t -> list call -> t -> Prop :=
| run_nil (this : t) : run this [] this
| run_cons (this this' this'' : t) (c : call) (cs : list call) :
    exec this c this' -> run this' cs this'' -> run this (c :: cs) this''.








End Calls.

(* ================================================================= *)
(** * The claims of the specification *)

Import BoundedMotion Pass Calls.

(** *** Running the program on given numbers *)

Lemma ltb_Fin_true (x y : R) : x < y -> (Fin x <? Fin y)%js = true.
Proof. apply ltb_Fin_iff. Qed.

Lemma ltb_Fin_false (x y : R) : y <= x -> (Fin x <? Fin y)%js = false.
Proof. apply Rltb_false. Qed.

Lemma leb_Fin_true (x y : R) : x <= y -> (Fin x <=? Fin y)%js = true.
Proof. apply leb_Fin_iff. Qed.

Lemma leb_Fin_false (x y : R) : y < x -> (Fin x <=? Fin y)%js = false.
Proof.
  intros Hxy. apply not_true_is_false. intros E. apply leb_Fin_iff in E. lra.
Qed.


Lemma eqb_Fin_true (x y : R) : x = y -> (Fin x === Fin y)%js = true.
Proof. apply Reqb_true. Qed.

Lemma eqb_Fin_false (x y : R) : x <> y -> (Fin x === Fin y)%js = false.
Proof. apply Reqb_false. Qed.

(** Settle each comparison of reals that the goal branches on, and unfold
    the arithmetic, by turns. *)
Ltac settle :=
  repeat match goal with
  | |- context [Rabs ?x] =>
      first [ rewrite (Rabs_pos_eq x) by lra | rewrite (Rabs_left x) by lra ]
  | |- context [(Fin ?x <? Fin ?y)%js] =>
      first [ rewrite (ltb_Fin_true x y) by lra
            | rewrite (ltb_Fin_false x y) by lra ]
  | |- context [(Fin ?x <=? Fin ?y)%js] =>
      first [ rewrite (leb_Fin_true x y) by lra
            | rewrite (leb_Fin_false x y) by lra ]
  | |- context [(Fin ?x === Fin ?y)%js] =>
      first [ rewrite (eqb_Fin_true x y) by lra
            | rewrite (eqb_Fin_false x y) by lra ]
  | |- context [Rltb ?x ?y] =>
      first [ rewrite (Rltb_true x y) by lra | rewrite (Rltb_false x y) by lra ]
  | |- context [Reqb ?x ?y] =>
      first [ rewrite (Reqb_true x y) by lra | rewrite (Reqb_false x y) by lra ]
  end.

Ltac js_run :=
  repeat (progress
            (cbn -[IZR Rabs R_sqrt.sqrt Rltb Reqb Rdiv Rminus ltb leb eqb];
             try unfold lit; try unfold gtb; try unfold geb; settle)).

(** The engine of the scenarios: [new BoundedMotion(100, 1000, 25)]. *)
Definition engine0 : t :=
  mk (lit 1000) (lit 25) (lit 100) None NaN NaN (lit 0) (lit 0).

Lemma new_engine0 : new (lit 100) (lit 1000) (lit 25) = Ok engine0.
Proof. unfold new, checkRange. js_run. reflexivity. Qed.

(** A short run: [setPos(50); setVel(0, 10); update(1)].  The particle
    stops after 0.4 s at 52 without meeting a wall. *)
Definition engine1 : t :=
  mk (lit 1000) (lit 25) (lit 100) None (lit 50) (lit 50) (lit 0) (lit 0).
Definition engine2 : t :=
  mk (lit 1000) (lit 25) (lit 100) (Some (lit 0)) (lit 50) (lit 50)
     (lit 10) (lit 10).
Definition engine3 : t :=
  mk (lit 1000) (lit 25) (lit 100) (Some (lit 0)) (lit 50) (lit 52)
     (lit 10) (lit 0).

Lemma setPos_engine0 : setPos engine0 (lit 50) = Ok engine1.
Proof. unfold setPos, checkRange. js_run. reflexivity. Qed.


Lemma update_engine2 : update 1 engine2 (lit 1) = Some (Ok (engine3, [])).
Proof.
  unfold update, update_loop, update_pass.
  unfold _velAtTrajTime, _posAtTrajTime, _trajTimeAtStop, set_pos_vel.
  js_run. unfold engine3, lit. repeat f_equal. lra.
Qed.



(* ----------------------------------------------------------------- *)
(** ** C2: the rebound function *)



(* ----------------------------------------------------------------- *)
(** ** C10: the rebound speed stays below the reference speed *)



(* ----------------------------------------------------------------- *)
(** ** C9: [update] terminates *)



(* ----------------------------------------------------------------- *)
(** ** C1: the position stays within the bounds *)




(* ----------------------------------------------------------------- *)
(** ** C4: when [update] throws *)




(* ----------------------------------------------------------------- *)
(** ** C5: the velocity estimate of the tracker *)

(** The update rule in the words of the specification: with
    [r = d / dt * 1000], the result is 0 if [r] is not finite, else [r] if
    [dt] exceeds 300, else [r] if [c] is not finite, or [c = 0], or
    [sign(r) != sign(c)], else [(c + r) / 2]. *)
Definition timeAvVel_spec (c d dt : num) : num :=
  let r := ((d / dt) * lit 1000)%js in
  if negb (isFinite r) then lit 0
  else if (dt >? lit 300)%js then r
  else if negb (isFinite c) || (c === lit 0)%js
          || negb (sign r === sign c)%js then r
  else ((c + r) / lit 2)%js.

(** The rule of the code: the estimate snaps to [r] on a change of sign
    only when [r] and [c] are of strictly opposite signs. *)
Definition timeAvVel_rule (c d dt : num) : num :=
  let r := ((d / dt) * lit 1000)%js in
  if negb (isFinite r) then lit 0
  else if (dt >? lit 300)%js then r
  else if negb (isFinite c) || (c === lit 0)%js
          || ((r <? lit 0) && (c >? lit 0))%js
          || ((r >? lit 0) && (c <? lit 0))%js then r
  else ((c + r) / lit 2)%js.

(** A tracker as the constructor leaves it, on a page without offsets. *)
Definition tracker0 : MouseTracker.t :=
  MouseTracker.new (lit 0) (lit 0) (lit 0) (lit 0) (lit 0) (lit 0)
    (lit 0) (lit 0).

(** A sample without displacement (the pointer moved along the other axis)
    while the estimate is 5: the code averages, to 2.5; by the rule of the
    specification the signs differ, 0 against 1, and the result is 0. *)
Lemma timeAvVel_zero_sample :
  MouseTracker._timeAvVel tracker0 (lit 5) (lit 0) (lit 10) = Fin (5 / 2) /\
  timeAvVel_spec (lit 5) (lit 0) (lit 10) = Fin 0 /\
  MouseTracker._timeAvVel tracker0 (lit 5) (lit 0) (lit 10)
    <> timeAvVel_spec (lit 5) (lit 0) (lit 10).
Proof.
  assert (E1 : MouseTracker._timeAvVel tracker0 (lit 5) (lit 0) (lit 10)
               = Fin (5 / 2)).
  { unfold MouseTracker._timeAvVel, tracker0, MouseTracker.new.
    js_run. apply Fin_eq. lra. }
  assert (E2 : timeAvVel_spec (lit 5) (lit 0) (lit 10) = Fin 0).
  { unfold timeAvVel_spec, sign. js_run. apply Fin_eq. lra. }
  split; [exact E1|]. split; [exact E2|].
  rewrite E1, E2. intros [= E]. lra.
Qed.

Lemma sign_differs (r c : R) :
  r <> 0 -> c <> 0 ->
  negb (sign (Fin r) === sign (Fin c))%js
  = ((Fin r <? lit 0) && (Fin c >? lit 0))%js
    || ((Fin r >? lit 0) && (Fin c <? lit 0))%js.
Proof.
  intros Hr Hc. unfold sign, gtb, lit.
  destruct (Rlt_dec r 0), (Rlt_dec c 0); settle; cbn; settle; reflexivity.
Qed.

(** C5 (amended).  For a tracker with the sample expiry of 300 ms, the new
    estimate is 0 if [r = d / dt * 1000] is not finite; else [r] if [dt]
    exceeds 300; else [r] if [c] is not finite, or [c = 0], or [r] and [c]
    have strictly opposite signs; else the average [(c + r) / 2].  This is
    the rule of the specification except for [r = 0] with [c <> 0]. *)
Theorem timeAvVel_rule_holds (this : MouseTracker.t) (c d dt : num) :
  MouseTracker._sampleExpireTime this = lit 300 ->
  MouseTracker._timeAvVel this c d dt = timeAvVel_rule c d dt /\
  ((((d / dt) * lit 1000)%js === lit 0)%js = false ->
   MouseTracker._timeAvVel this c d dt = timeAvVel_spec c d dt).
Proof.
  intros E.
  assert (E1 : MouseTracker._timeAvVel this c d dt = timeAvVel_rule c d dt).
  { unfold MouseTracker._timeAvVel, timeAvVel_rule. rewrite E.
    destruct (negb (isFinite (d / dt * lit 1000)%js)); [reflexivity|].
    destruct (dt >? lit 300)%js; [reflexivity|].
    destruct (negb (isFinite c)); [reflexivity|].
    destruct (c === lit 0)%js; [reflexivity|]. cbn [orb].
    destruct ((d / dt * lit 1000 <? lit 0)%js && (c >? lit 0)%js);
      [reflexivity|].
    cbn [orb].
    destruct ((d / dt * lit 1000 >? lit 0)%js && (c <? lit 0)%js);
      reflexivity. }
  split; [exact E1|].
  intros Hr. rewrite E1. unfold timeAvVel_rule, timeAvVel_spec. cbv zeta.
  destruct (d / dt * lit 1000)%js as [| | |r] eqn:Er; try reflexivity.
  cbn [isFinite negb].
  destruct (dt >? lit 300)%js; [reflexivity|].
  destruct c as [| | |c]; try reflexivity. cbn [isFinite negb orb].
  destruct (Fin c === lit 0)%js eqn:Ec; [reflexivity|]. cbn [orb].
  rewrite sign_differs; [reflexivity| |].
  - intros ->. unfold lit in Hr. rewrite eqb_Fin_true in Hr by reflexivity.
    discriminate.
  - intros ->. unfold lit in Ec. rewrite eqb_Fin_true in Ec by reflexivity.
    discriminate.
Qed.

Lemma timeAvVel_rule_holds_witness :
  MouseTracker._timeAvVel tracker0 (lit 5) (lit 3) (lit 10)
    = timeAvVel_rule (lit 5) (lit 3) (lit 10) /\
  ((((lit 3 / lit 10) * lit 1000)%js === lit 0)%js = false ->
   MouseTracker._timeAvVel tracker0 (lit 5) (lit 3) (lit 10)
     = timeAvVel_spec (lit 5) (lit 3) (lit 10)).
Proof.
  apply (timeAvVel_rule_holds tracker0 (lit 5) (lit 3) (lit 10)).
  reflexivity.
Defined.

(* ----------------------------------------------------------------- *)
(** ** C8: duplicate client coordinates *)

(** C8.  A mouse move or mouse over whose client coordinates both equal
    those of the previous sample changes nothing: the object that owns the
    tracker, and so the tracker with its velocities, positions, client
    coordinates and time stamps, is returned as it was, whatever the
    position handler is; the handler is therefore not run (a handler that
    throws would otherwise make the call throw). *)
Theorem duplicate_event_ignored (W : Type) (get : W -> MouseTracker.t)
    (set : MouseTracker.t -> W -> W) (posHandler : W -> result W)
    (ev : MouseTracker.event) (h : MouseTracker.host) (w : W) :
  (MouseTracker._clientX (get w) === MouseTracker.clientX ev)%js = true ->
  (MouseTracker._clientY (get w) === MouseTracker.clientY ev)%js = true ->
  MouseTracker._updateToClientPos get set posHandler ev h w = Ok w /\
  MouseTracker._updateFromMouseMove get set posHandler ev h w = Ok w /\
  MouseTracker._updateFromMouseOver get set posHandler ev h w = Ok w /\
  MouseTracker._updateToClientPos get set (fun _ => Throw Error) ev h w = Ok w.
Proof.
  intros Ex Ey.
  unfold MouseTracker._updateFromMouseMove, MouseTracker._updateFromMouseOver,
    MouseTracker._updateToClientPos.
  rewrite Ex, Ey. cbn [andb]. repeat split; reflexivity.
Qed.

(** A tracker whose last sample was at client position (10, 20). *)
Definition tracker1 : MouseTracker.t :=
  MouseTracker.mk (lit 100) (lit 0) (lit 10) (lit 20) (lit 10) (lit 20)
    (lit 0) (lit 0) (lit 1000) (lit 5000) (lit 0) (lit 0) (lit 300).

Definition event1 : MouseTracker.event :=
  {| MouseTracker.clientX := lit 10;
     MouseTracker.clientY := lit 20;
     MouseTracker.timeStamp := lit 1010 |}.

Definition host1 : MouseTracker.host :=
  {| MouseTracker.now := lit 5010;
     MouseTracker.rect_x := lit 0;
     MouseTracker.rect_y := lit 0;
     MouseTracker.window_scrollX := lit 0;
     MouseTracker.window_scrollY := lit 0 |}.

Lemma duplicate_event_ignored_witness :
  MouseTracker._updateToClientPos (fun w => w) (fun m _ => m)
    (fun w => Ok w) event1 host1 tracker1 = Ok tracker1 /\
  MouseTracker._updateFromMouseMove (fun w => w) (fun m _ => m)
    (fun w => Ok w) event1 host1 tracker1 = Ok tracker1 /\
  MouseTracker._updateFromMouseOver (fun w => w) (fun m _ => m)
    (fun w => Ok w) event1 host1 tracker1 = Ok tracker1 /\
  MouseTracker._updateToClientPos (fun w => w) (fun m _ => m)
    (fun _ => Throw Error) event1 host1 tracker1 = Ok tracker1.
Proof.
  apply (duplicate_event_ignored MouseTracker.t (fun w => w) (fun m _ => m)
           (fun w => Ok w) event1 host1 tracker1).
  - apply eqb_Fin_true. reflexivity.
  - apply eqb_Fin_true. reflexivity.
Defined.

(* ----------------------------------------------------------------- *)
(** ** C6: no hit while immune *)

(** C6.  While the immunity flag is set, hit detection registers no hit
    and leaves both motion engines as they are, wherever the pointer is and
    however fast it moves: [_detectHit] only clears the hit flag, and each
    event of the tracker, which ends in [_detectHit], returns with the two
    engines and the flag unchanged. *)
Theorem no_hit_while_immune (h : MovingButton.host) (this : MovingButton.t) :
  MovingButton._hitImmune this = true ->
  MovingButton._detectHit h this = Ok (MovingButton.set_hit this false) /\
  forall (ev : MouseTracker.event) (ht : MouseTracker.host)
         (on : MouseTracker.event -> MouseTracker.host -> MovingButton.host ->
               MovingButton.t -> result MovingButton.t),
    In on [MovingButton.on_mousemove; MovingButton.on_mouseover;
           MovingButton.on_mouseleave; MovingButton.on_scroll;
           MovingButton.on_resize] ->
    exists this',
      on ev ht h this = Ok this' /\
      MovingButton._motionX this' = MovingButton._motionX this /\
      MovingButton._motionY this' = MovingButton._motionY this /\
      MovingButton._hitImmune this' = true /\
      (MovingButton._hit this' = true -> MovingButton._hit this = true).
Proof.
  intros Himm.
  assert (Hdetect : forall b, MovingButton._hitImmune b = true ->
            MovingButton._detectHit h b = Ok (MovingButton.set_hit b false)).
  { intros b Hb. unfold MovingButton._detectHit. rewrite Hb.
    cbn [Bool.eqb andb]. rewrite andb_false_r. reflexivity. }
  split; [now apply Hdetect|].
  intros ev ht on Hon.
  assert (Hmotion : forall d1 d2 ts,
    exists this',
      MouseTracker._updateMouseMotion MovingButton._mouseTracker
        MovingButton.set_mouseTracker (MovingButton._detectHit h) d1 d2 ts ht this
        = Ok this' /\
      MovingButton._motionX this' = MovingButton._motionX this /\
      MovingButton._motionY this' = MovingButton._motionY this /\
      MovingButton._hitImmune this' = true /\
      MovingButton._hit this' = false).
  { intros d1 d2 ts. unfold MouseTracker._updateMouseMotion.
    rewrite Hdetect by exact Himm. eexists. split; [reflexivity|].
    repeat split; try reflexivity. exact Himm. }
  assert (Hclient :
    exists this',
      MouseTracker._updateToClientPos MovingButton._mouseTracker
        MovingButton.set_mouseTracker (MovingButton._detectHit h) ev ht this
        = Ok this' /\
      MovingButton._motionX this' = MovingButton._motionX this /\
      MovingButton._motionY this' = MovingButton._motionY this /\
      MovingButton._hitImmune this' = true /\
      (MovingButton._hit this' = true -> MovingButton._hit this = true)).
  { unfold MouseTracker._updateToClientPos.
    destruct ((_ === _)%js && (_ === _)%js).
    - exists this. repeat split; auto.
    - unfold MouseTracker._updateMouseMotion.
      rewrite Hdetect by exact Himm. eexists. split; [reflexivity|].
      repeat split; try reflexivity; [exact Himm|discriminate]. }
  assert (Hunknown :
    exists this',
      MouseTracker._updateToUnknown MovingButton._mouseTracker
        MovingButton.set_mouseTracker (MovingButton._detectHit h) ev ht this
        = Ok this' /\
      MovingButton._motionX this' = MovingButton._motionX this /\
      MovingButton._motionY this' = MovingButton._motionY this /\
      MovingButton._hitImmune this' = true /\
      (MovingButton._hit this' = true -> MovingButton._hit this = true)).
  { unfold MouseTracker._updateToUnknown, MouseTracker._updateMouseMotion.
    rewrite Hdetect by exact Himm. eexists. split; [reflexivity|].
    repeat split; try reflexivity; [exact Himm|discriminate]. }
  cbn [In] in Hon.
  destruct Hon as [<-|[<-|[<-|[<-|[<-|[]]]]]].
  - exact Hclient.
  - exact Hclient.
  - exact Hunknown.
  - unfold MovingButton.on_scroll, MouseTracker._updateFromScroll.
    destruct (Hmotion
      (MouseTracker.window_scrollX ht
       - MouseTracker._scrollX (MovingButton._mouseTracker this))%js
      (MouseTracker.window_scrollY ht
       - MouseTracker._scrollY (MovingButton._mouseTracker this))%js
      (MouseTracker.timeStamp ev)) as (b & Eb & Hx & Hy & Hi & Hh).
    rewrite Eb. cbn [bind]. eexists. split; [reflexivity|].
    destruct b. cbn in *. repeat split; auto. intros; congruence.
  - exact Hunknown.
Qed.

(** A button at rest at (50, 50) in a 100 by 100 area, 40 by 20 wide, with
    the pointer last seen at (10, 20); and the same button while immune. *)
Definition button0 : MovingButton.t :=
  MovingButton.mk
    {| MovingButton.shiny := true;
       MovingButton.alert := false;
       MovingButton.alert_fade := false |}
    (lit 50) (lit 50) engine1 engine1 None
    (lit 2) (lit 44) (lit 24) false false tracker1 None.

Definition button_immune : MovingButton.t :=
  MovingButton.set_hitImmune button0 true.

Definition host0 : MovingButton.host :=
  {| MovingButton.now := lit 5000;
     MovingButton.random := Fin (1 / 4);
     MovingButton.rect_x := lit 50;
     MovingButton.rect_y := lit 50;
     MovingButton.intervalID := 1%nat;
     MovingButton.timeoutID := 2%nat |}.

Lemma no_hit_while_immune_witness :
  MovingButton._detectHit host0 button_immune
    = Ok (MovingButton.set_hit button_immune false).
Proof.
  apply (no_hit_while_immune host0 button_immune). reflexivity.
Defined.

(* ----------------------------------------------------------------- *)
(** ** C7: the velocity given by a click *)

Lemma sqrt_sum_squares (x y : R) :
  sqrt ((Fin x * Fin x) + (Fin y * Fin y))%js
  = Fin (R_sqrt.sqrt (x * x + y * y)).
Proof.
  cbn [mul add sqrt]. rewrite Rltb_false by nra. reflexivity.
Qed.

Lemma unitVec_away (rnd px py : R) :
  px <> 0 \/ py <> 0 ->
  0 < R_sqrt.sqrt (px * px + py * py) /\
  MovingButton._getUnitVecAwayFrom (Fin rnd) (Fin px) (Fin py)
  = (Fin (- (px / R_sqrt.sqrt (px * px + py * py))),
     Fin (- (py / R_sqrt.sqrt (px * px + py * py)))).
Proof.
  intros Hp.
  assert (Hm : 0 < R_sqrt.sqrt (px * px + py * py)).
  { apply sqrt_lt_R0. destruct Hp; nra. }
  split; [exact Hm|].
  unfold MovingButton._getUnitVecAwayFrom. rewrite sqrt_sum_squares.
  unfold gtb, lit. rewrite ltb_Fin_true by exact Hm. cbn [negb].
  rewrite !div_Fin by lra. reflexivity.
Qed.

Lemma unitVec_random (rnd : R) :
  MovingButton._getUnitVecAwayFrom (Fin rnd) (Fin 0) (Fin 0)
  = (Fin (- (Rtrigo_def.cos (rnd * 2 * Rtrigo1.PI) / 1)),
     Fin (- (Rtrigo_def.sin (rnd * 2 * Rtrigo1.PI) / 1))).
Proof.
  unfold MovingButton._getUnitVecAwayFrom. rewrite sqrt_sum_squares.
  replace (0 * 0 + 0 * 0) with 0 by lra. rewrite sqrt_0.
  unfold gtb, lit. rewrite ltb_Fin_false by lra. cbn [negb].
  unfold PI. cbn [mul cos sin]. rewrite !div_Fin by lra. reflexivity.
Qed.





Definition click0 : MovingButton.click :=
  {| MovingButton.clientX := lit 80; MovingButton.clientY := lit 60 |}.


(* ----------------------------------------------------------------- *)
(** ** C3: scenario B *)

Module ScenarioB.

(** [new BoundedMotion(100, 1000, 25)] after [setPos(50)] and
    [setVel(0, 2000)]. *)
Definition engineB : t :=
  mk (lit 1000) (lit 25) (lit 100) (Some (lit 0)) (lit 50) (lit 50)
     (lit 2000) (lit 2000).

Lemma setVel_engineB : setVel engine1 (lit 0) (lit 2000) = Ok engineB.
Proof. unfold setVel, checkRange. js_run. reflexivity. Qed.

(** The analytic solution, segment by segment.  On a segment that starts
    with velocity [v] at distance [d] from the wall ahead, the wall is met
    with the speed [q = sqrt (v * v - 2 * a * d)] after the time
    [(|v| - q) / a]; the next segment starts with the rebound of that
    velocity.  [Ti] is the time left after the hit. *)
Definition q1 : R := R_sqrt.sqrt (2000 * 2000 - 2 * 25 * (100 - 50)).
Definition t1 : R := (2000 - q1) / 25.
Definition v1 : R := reboundR 1000 q1.
Definition T1 : R := 1 - t1.

Definition q2 : R := R_sqrt.sqrt (v1 * v1 - 2 * 25 * 100).
Definition t2 : R := (- v1 - q2) / 25.
Definition v2 : R := reboundR 1000 (- q2).
Definition T2 : R := T1 - t2.

Definition q3 : R := R_sqrt.sqrt (v2 * v2 - 2 * 25 * (100 - 0)).
Definition t3 : R := (v2 - q3) / 25.
Definition v3 : R := reboundR 1000 q3.
Definition T3 : R := T2 - t3.

Definition q4 : R := R_sqrt.sqrt (v3 * v3 - 2 * 25 * 100).
Definition t4 : R := (- v3 - q4) / 25.
Definition v4 : R := reboundR 1000 (- q4).
Definition T4 : R := T3 - t4.

Definition velF : R := v4 - 25 * T4.
Definition posF : R := 0 + (v4 + velF) / 2 * T4.

(** Position and velocity on one quadratic arc, in the textbook form. *)
Definition arc_vel (a v t : R) : R :=
  if Rle_dec 0 v then v - a * t else v + a * t.
Definition arc_pos (a p v t : R) : R :=
  if Rle_dec 0 v then p + v * t - a * t * t / 2
  else p + v * t + a * t * t / 2.

Lemma sqrt_between (d lo hi : R) :
  0 <= lo -> 0 <= hi -> lo * lo < d -> d < hi * hi ->
  lo < R_sqrt.sqrt d < hi.
Proof.
  intros Hlo Hhi H1 H2.
  assert (Hd : 0 <= d) by nra.
  pose proof (sqrt_pos d) as Hq. pose proof (sqrt_sqrt d Hd) as Hqq.
  set (q := R_sqrt.sqrt d) in *. clearbody q. split; nra.
Qed.

Lemma rebound_up_between (q lo hi : R) :
  0 < q -> q < - lo * (q / 1000 + 1) -> - hi * (q / 1000 + 1) < q ->
  lo < reboundR 1000 q < hi.
Proof.
  intros Hq Hlo Hhi. unfold reboundR. rewrite Rabs_pos_eq by lra.
  assert (Hd : 0 < q / 1000 + 1) by lra.
  assert (E : - q / (q / 1000 + 1) * (q / 1000 + 1) = - q) by (field; lra).
  set (w := - q / (q / 1000 + 1)) in *. clearbody w.
  set (d := q / 1000 + 1) in *. clearbody d. split; nra.
Qed.

Lemma rebound_down_between (q lo hi : R) :
  0 < q -> lo * (q / 1000 + 1) < q -> q < hi * (q / 1000 + 1) ->
  lo < reboundR 1000 (- q) < hi.
Proof.
  intros Hq Hlo Hhi. unfold reboundR. rewrite Rabs_left by lra.
  rewrite !Ropp_involutive.
  assert (Hd : 0 < q / 1000 + 1) by lra.
  assert (E : q / (q / 1000 + 1) * (q / 1000 + 1) = q) by (field; lra).
  set (w := q / (q / 1000 + 1)) in *. clearbody w.
  set (d := q / 1000 + 1) in *. clearbody d. split; nra.
Qed.

Lemma q1_bounds : 1999.37 < q1 < 1999.38.
Proof. unfold q1. apply sqrt_between; lra. Qed.

Lemma t1_bounds : 0.0248 < t1 < 0.0252.
Proof. pose proof q1_bounds. unfold t1. lra. Qed.

Lemma v1_bounds : - 666.60 < v1 < - 666.59.
Proof. pose proof q1_bounds. unfold v1. apply rebound_up_between; lra. Qed.

Lemma T1_bounds : 0.9748 < T1 < 0.9752.
Proof. pose proof t1_bounds. unfold T1. lra. Qed.

Lemma q2_bounds : 662.82 < q2 < 662.84.
Proof. pose proof v1_bounds. unfold q2. apply sqrt_between; nra. Qed.

Lemma t2_bounds : 0.15 < t2 < 0.1512.
Proof. pose proof v1_bounds. pose proof q2_bounds. unfold t2. lra. Qed.

Lemma v2_bounds : 398.61 < v2 < 398.62.
Proof. pose proof q2_bounds. unfold v2. apply rebound_down_between; lra. Qed.

Lemma T2_bounds : 0.8236 < T2 < 0.8252.
Proof. pose proof T1_bounds. pose proof t2_bounds. unfold T2. lra. Qed.

Lemma q3_bounds : 392.28 < q3 < 392.30.
Proof. pose proof v2_bounds. unfold q3. apply sqrt_between; nra. Qed.

Lemma t3_bounds : 0.2524 < t3 < 0.2536.
Proof. pose proof v2_bounds. pose proof q3_bounds. unfold t3. lra. Qed.

Lemma v3_bounds : - 281.77 < v3 < - 281.75.
Proof. pose proof q3_bounds. unfold v3. apply rebound_up_between; lra. Qed.

Lemma T3_bounds : 0.57 < T3 < 0.5728.
Proof. pose proof T2_bounds. pose proof t3_bounds. unfold T3. lra. Qed.

Lemma q4_bounds : 272.73 < q4 < 272.76.
Proof. pose proof v3_bounds. unfold q4. apply sqrt_between; nra. Qed.

Lemma t4_bounds : 0.3596 < t4 < 0.3616.
Proof. pose proof v3_bounds. pose proof q4_bounds. unfold t4. lra. Qed.

Lemma v4_bounds : 214.28 < v4 < 214.31.
Proof. pose proof q4_bounds. unfold v4. apply rebound_down_between; lra. Qed.

Lemma T4_bounds : 0.2084 < T4 < 0.2132.
Proof. pose proof T3_bounds. pose proof t4_bounds. unfold T4. lra. Qed.

Lemma velF_bounds : 208 < velF < 210.
Proof. pose proof v4_bounds. pose proof T4_bounds. unfold velF. lra. Qed.

Lemma posF_bounds : 44 < posF < 46.
Proof.
  pose proof v4_bounds. pose proof T4_bounds. unfold posF, velF.
  generalize dependent v4. generalize dependent T4. intros T HT v Hv. nra.
Qed.

(** The four hits of the run. *)
Definition hit1 : hit := {| hitTime := Fin t1; hitVel := Fin q1; reported := false |}.
Definition hit2 : hit := {| hitTime := Fin t2; hitVel := Fin (- q2); reported := false |}.
Definition hit3 : hit := {| hitTime := Fin t3; hitVel := Fin q3; reported := false |}.
Definition hit4 : hit := {| hitTime := Fin t4; hitVel := Fin (- q4); reported := false |}.

(** The engine after [update(1)]. *)
Definition engineB' : t :=
  mk (lit 1000) (lit 25) (lit 100) (Some (Fin (0 + t1 + t2 + t3 + t4)))
     (lit 0) (Fin posF) (Fin v4) (Fin velF).

Lemma loop_run (pos0 vel0 : num) :
  update_loop 5 (eng 1000 25 100 (Some (Fin 0)) 50 2000 pos0 vel0) (Fin 1)
  = Some (eng 1000 25 100 (Some (Fin (0 + t1 + t2 + t3 + t4))) 0 v4 pos0 vel0,
          Fin posF, Fin velF, [hit1; hit2; hit3; hit4]).
Proof.
  assert (HH : 0 < 1000) by lra. assert (Ha : 0 < 25) by lra.
  pose proof q1_bounds. pose proof t1_bounds. pose proof v1_bounds.
  pose proof T1_bounds. pose proof q2_bounds. pose proof t2_bounds.
  pose proof v2_bounds. pose proof T2_bounds. pose proof q3_bounds.
  pose proof t3_bounds. pose proof v3_bounds. pose proof T3_bounds.
  pose proof q4_bounds. pose proof t4_bounds. pose proof v4_bounds.
  pose proof T4_bounds.
  (* first segment: up to the wall at 100 *)
  pose proof (pass_hit_upper 1000 25 100 HH Ha pos0 vel0 (Some (Fin 0))
                50 2000 1 ltac:(lra) ltac:(lra) ltac:(lra) ltac:(lra)
                ltac:(lra)) as P1.
  cbv zeta in P1. destruct P1 as (_ & _ & E1).
  change (R_sqrt.sqrt (2000 * 2000 - 2 * 25 * (100 - 50))) with q1 in E1.
  change ((2000 - q1) / 25) with t1 in E1.
  change (reboundR 1000 q1) with v1 in E1. change (1 - t1) with T1 in E1.
  (* second segment: down to the wall at 0 *)
  pose proof (pass_hit_lower 1000 25 100 HH Ha pos0 vel0
                (Some (toNumber (Some (Fin 0)) + Fin t1)%js)
                100 v1 T1 ltac:(lra) ltac:(lra) ltac:(lra) ltac:(lra)
                ltac:(nra)) as P2.
  cbv zeta in P2. destruct P2 as (_ & _ & E2).
  change (R_sqrt.sqrt (v1 * v1 - 2 * 25 * 100)) with q2 in E2.
  change ((- v1 - q2) / 25) with t2 in E2.
  change (reboundR 1000 (- q2)) with v2 in E2. change (T1 - t2) with T2 in E2.
  (* third segment: up to the wall at 100 *)
  pose proof (pass_hit_upper 1000 25 100 HH Ha pos0 vel0
                (Some (toNumber (Some (toNumber (Some (Fin 0)) + Fin t1)%js)
                       + Fin t2)%js)
                0 v2 T2 ltac:(lra) ltac:(lra) ltac:(lra) ltac:(lra)
                ltac:(nra)) as P3.
  cbv zeta in P3. destruct P3 as (_ & _ & E3).
  change (R_sqrt.sqrt (v2 * v2 - 2 * 25 * (100 - 0))) with q3 in E3.
  change ((v2 - q3) / 25) with t3 in E3.
  change (reboundR 1000 q3) with v3 in E3. change (T2 - t3) with T3 in E3.
  (* fourth segment: down to the wall at 0 *)
  pose proof (pass_hit_lower 1000 25 100 HH Ha pos0 vel0
                (Some (toNumber
                         (Some (toNumber
                                  (Some (toNumber (Some (Fin 0)) + Fin t1)%js)
                                + Fin t2)%js) + Fin t3)%js)
                100 v3 T3 ltac:(lra) ltac:(lra) ltac:(lra) ltac:(lra)
                ltac:(nra)) as P4.
  cbv zeta in P4. destruct P4 as (_ & _ & E4).
  change (R_sqrt.sqrt (v3 * v3 - 2 * 25 * 100)) with q4 in E4.
  change ((- v3 - q4) / 25) with t4 in E4.
  change (reboundR 1000 (- q4)) with v4 in E4. change (T3 - t4) with T4 in E4.
  (* fifth segment: the time left *)
  assert (Ev : velAtR 25 v4 T4 = velF).
  { unfold velAtR, velF. destruct (Rle_dec 0 v4); lra. }
  pose proof (pass_settles 1000 25 100 HH Ha pos0 vel0
                (Some (toNumber
                         (Some (toNumber
                                  (Some (toNumber
                                           (Some (toNumber (Some (Fin 0))
                                                  + Fin t1)%js)
                                         + Fin t2)%js) + Fin t3)%js)
                       + Fin t4)%js)
                0 v4 T4 ltac:(lra)) as P5.
  rewrite Ev in P5.
  assert (E5 := P5 ltac:(rewrite Rabs_pos_eq; lra)
                   ltac:(unfold velF; nra)).
  clear P5.
  cbn [update_loop]. rewrite E1, E2, E3, E4, E5. reflexivity.
Qed.

Lemma update_run :
  forall fuel : nat, (5 <= fuel)%nat ->
  update fuel engineB (lit 1)
  = Some (Ok (engineB', [hit1; hit2; hit3; hit4])).
Proof.
  intros fuel Hfuel. unfold update, engineB. cbn [_trajStartGlobalTime toNumber].
  assert (ET : (lit 1 - lit 0)%js = Fin 1) by (apply Fin_eq; lra).
  rewrite ET.
  assert (G : (Fin 1 >=? lit 0)%js = true) by (apply geb_Fin_iff; lra).
  rewrite G. cbn [negb].
  pose proof (loop_run (lit 50) (lit 2000)) as E.
  apply (update_loop_mono 5 fuel) in E; [|exact Hfuel].
  unfold eng in E. unfold lit in *. rewrite E. reflexivity.
Qed.

(** The distance travelled up to the hit time is the distance to the wall. *)
Lemma arc_hit (a w d : R) :
  0 < a -> 0 <= w * w - 2 * a * d ->
  w * ((w - R_sqrt.sqrt (w * w - 2 * a * d)) / a)
  - a * ((w - R_sqrt.sqrt (w * w - 2 * a * d)) / a)
      * ((w - R_sqrt.sqrt (w * w - 2 * a * d)) / a) / 2 = d.
Proof.
  intros Ha Hd. pose proof (sqrt_sqrt _ Hd) as Hqq.
  set (q := R_sqrt.sqrt (w * w - 2 * a * d)) in *. clearbody q.
  replace d with ((w * w - q * q) / (2 * a)) by (rewrite Hqq; field; lra).
  field. lra.
Qed.

Lemma arcs_meet_walls :
  arc_pos 25 50 2000 t1 = 100 /\ arc_pos 25 100 v1 t2 = 0 /\
  arc_pos 25 0 v2 t3 = 100 /\ arc_pos 25 100 v3 t4 = 0.
Proof.
  pose proof v1_bounds. pose proof v2_bounds. pose proof v3_bounds.
  unfold arc_pos.
  destruct (Rle_dec 0 2000); [|lra]. destruct (Rle_dec 0 v1); [lra|].
  destruct (Rle_dec 0 v2); [|lra]. destruct (Rle_dec 0 v3); [lra|].
  repeat split.
  - pose proof (arc_hit 25 2000 (100 - 50) ltac:(lra) ltac:(lra)) as E.
    fold q1 in E. fold t1 in E. lra.
  - pose proof (arc_hit 25 (- v1) 100 ltac:(lra) ltac:(nra)) as E.
    replace (- v1 * - v1) with (v1 * v1) in E by ring.
    fold q2 in E. fold t2 in E. lra.
  - pose proof (arc_hit 25 v2 (100 - 0) ltac:(lra) ltac:(nra)) as E.
    fold q3 in E. fold t3 in E. lra.
  - pose proof (arc_hit 25 (- v3) 100 ltac:(lra) ltac:(nra)) as E.
    replace (- v3 * - v3) with (v3 * v3) in E by ring.
    fold q4 in E. fold t4 in E. lra.
Qed.

Lemma arcs_rebound :
  v1 = reboundR 1000 (arc_vel 25 2000 t1) /\
  v2 = reboundR 1000 (arc_vel 25 v1 t2) /\
  v3 = reboundR 1000 (arc_vel 25 v2 t3) /\
  v4 = reboundR 1000 (arc_vel 25 v3 t4).
Proof.
  pose proof v1_bounds. pose proof v2_bounds. pose proof v3_bounds.
  unfold arc_vel.
  destruct (Rle_dec 0 2000); [|lra]. destruct (Rle_dec 0 v1); [lra|].
  destruct (Rle_dec 0 v2); [|lra]. destruct (Rle_dec 0 v3); [lra|].
  repeat split.
  - unfold v1. f_equal. unfold t1. field.
  - unfold v2. f_equal. unfold t2. field.
  - unfold v3. f_equal. unfold t3. field.
  - unfold v4. f_equal. unfold t4. field.
Qed.

Lemma last_arc :
  posF = arc_pos 25 0 v4 (1 - (t1 + t2 + t3 + t4)) /\
  velF = arc_vel 25 v4 (1 - (t1 + t2 + t3 + t4)).
Proof.
  pose proof v4_bounds. unfold arc_pos, arc_vel.
  destruct (Rle_dec 0 v4); [|lra].
  assert (E : 1 - (t1 + t2 + t3 + t4) = T4) by (unfold T4, T3, T2, T1; lra).
  rewrite E. unfold posF, velF. split; lra.
Qed.

End ScenarioB.

(** The run of scenario B has four rebounds, and the velocity is positive
    again at the end: there is no run of [update(1)] with exactly one
    rebound, and none that ends with a negative velocity. *)
Lemma scenarioB_not_one_rebound :
  ~ (exists fuel m' hs,
       update fuel ScenarioB.engineB (lit 1) = Some (Ok (m', hs)) /\
       (length hs = 1%nat \/ (vel m' <? lit 0)%js = true)).
Proof.
  intros (fuel & m' & hs & E & Hclaim).
  apply (update_fuel_mono fuel (fuel + 5)) in E; [|lia].
  rewrite ScenarioB.update_run in E by lia.
  injection E as <- <-.
  destruct Hclaim as [Hlen|Hneg]; [discriminate|].
  pose proof ScenarioB.velF_bounds.
  cbn [vel ScenarioB.engineB'] in Hneg. apply ltb_Fin_iff in Hneg. lra.
Qed.

(** C3 (amended).  For the engine with [upperPos = 100],
    [halfReboundVel = 1000] and [accel = 25], after [setPos(50)] and
    [setVel(0, 2000)], the call [update(1)] returns; the particle reaches
    the wall at 100 before [t = 1]; four rebounds occur, at the walls 100,
    0, 100 and 0, none with a replaced hit time; the velocity is positive
    at the end; and [pos] and [vel] are those of the five-segment analytic
    solution: four quadratic arcs, each ending at the time it meets its
    wall and followed by a rebound, and a fifth arc for the time left. *)
Theorem scenarioB_solution :
  new (lit 100) (lit 1000) (lit 25) = Ok engine0 /\
  setPos engine0 (lit 50) = Ok engine1 /\
  setVel engine1 (lit 0) (lit 2000) = Ok ScenarioB.engineB /\
  (forall fuel : nat, (5 <= fuel)%nat ->
     update fuel ScenarioB.engineB (lit 1)
     = Some (Ok (ScenarioB.engineB',
                 [ScenarioB.hit1; ScenarioB.hit2; ScenarioB.hit3;
                  ScenarioB.hit4]))) /\
  0 < ScenarioB.t1 < 1 /\
  0 < ScenarioB.t2 /\ 0 < ScenarioB.t3 /\ 0 < ScenarioB.t4 /\
  ScenarioB.t1 + ScenarioB.t2 + ScenarioB.t3 + ScenarioB.t4 < 1 /\
  ScenarioB.arc_pos 25 50 2000 ScenarioB.t1 = 100 /\
  ScenarioB.arc_pos 25 100 ScenarioB.v1 ScenarioB.t2 = 0 /\
  ScenarioB.arc_pos 25 0 ScenarioB.v2 ScenarioB.t3 = 100 /\
  ScenarioB.arc_pos 25 100 ScenarioB.v3 ScenarioB.t4 = 0 /\
  ScenarioB.v1 = reboundR 1000 (ScenarioB.arc_vel 25 2000 ScenarioB.t1) /\
  ScenarioB.v2 = reboundR 1000 (ScenarioB.arc_vel 25 ScenarioB.v1 ScenarioB.t2) /\
  ScenarioB.v3 = reboundR 1000 (ScenarioB.arc_vel 25 ScenarioB.v2 ScenarioB.t3) /\
  ScenarioB.v4 = reboundR 1000 (ScenarioB.arc_vel 25 ScenarioB.v3 ScenarioB.t4) /\
  pos ScenarioB.engineB'
    = Fin (ScenarioB.arc_pos 25 0 ScenarioB.v4
             (1 - (ScenarioB.t1 + ScenarioB.t2 + ScenarioB.t3 + ScenarioB.t4))) /\
  vel ScenarioB.engineB'
    = Fin (ScenarioB.arc_vel 25 ScenarioB.v4
             (1 - (ScenarioB.t1 + ScenarioB.t2 + ScenarioB.t3 + ScenarioB.t4))) /\
  44 < ScenarioB.posF < 46 /\ 208 < ScenarioB.velF < 210.
Proof.
  pose proof ScenarioB.t1_bounds. pose proof ScenarioB.t2_bounds.
  pose proof ScenarioB.t3_bounds. pose proof ScenarioB.t4_bounds.
  destruct ScenarioB.arcs_meet_walls as (A1 & A2 & A3 & A4).
  destruct ScenarioB.arcs_rebound as (R1 & R2 & R3 & R4).
  destruct ScenarioB.last_arc as (L1 & L2).
  split; [exact new_engine0|]. split; [exact setPos_engine0|].
  split; [exact ScenarioB.setVel_engineB|].
  split; [exact ScenarioB.update_run|].
  split; [lra|]. split; [lra|]. split; [lra|]. split; [lra|]. split; [lra|].
  split; [exact A1|]. split; [exact A2|]. split; [exact A3|].
  split; [exact A4|].
  split; [exact R1|]. split; [exact R2|]. split; [exact R3|].
  split; [exact R4|].
  split; [cbn [pos ScenarioB.engineB']; now rewrite L1|].
  split; [cbn [vel ScenarioB.engineB']; now rewrite L2|].
  split; [exact ScenarioB.posF_bounds|exact ScenarioB.velF_bounds].
Qed.

(* ================================================================= *)
(** * Further properties of the code *)

(* ----------------------------------------------------------------- *)
(** ** The motion engine *)

Module Motion.





Section Exact.

Variables H a u : R.
Hypothesis H_pos : 0 < H.
Hypothesis a_pos : 0 < a.
Variables pos0 vel0 : num.















End Exact.





(** A pass does not read the [pos] and [vel] fields; it carries them
    along. *)
Lemma update_pass_pos_vel (this : t) (q w T : num) :
  update_pass (set_pos_vel this q w) T
  = match update_pass this T with
    | Settled q' w' => Settled q' w'
    | NewTraj m T' h => NewTraj (set_pos_vel m q w) T' h
    end.
Proof.
  destruct this. unfold update_pass, set_pos_vel, _velAtTrajTime,
    _posAtTrajTime, _trajTimeAtStop, _trajTimeAtDisp, reboundVel.
  cbn [_halfReboundVel _accel _upperPos _trajStartGlobalTime _initPos pos
       _initVel vel].
  match goal with
  | |- (if ?c then _ else _) = _ => destruct c; reflexivity
  end.
Qed.

Lemma update_loop_pos_vel (fuel : nat) :
  forall (this : t) (q w T : num),
    update_loop fuel (set_pos_vel this q w) T
    = match update_loop fuel this T with
      | Some (m, q', w', hs) => Some (set_pos_vel m q w, q', w', hs)
      | None => None
      end.
Proof.
  induction fuel as [|fuel IH]; intros this q w T; [reflexivity|].
  cbn [update_loop]. rewrite update_pass_pos_vel.
  destruct (update_pass this T) as [q' w'|m T' h]; [reflexivity|].
  rewrite IH. destruct (update_loop fuel m T') as [[[[m' q'] w'] hs]|];
    reflexivity.
Qed.

Lemma update_pos_vel (fuel : nat) (this : t) (q w t0 : num) :
  update fuel (set_pos_vel this q w) t0 = update fuel this t0.
Proof.
  unfold update. cbn [set_pos_vel _trajStartGlobalTime].
  destruct (negb _); [reflexivity|].
  rewrite update_loop_pos_vel.
  destruct (update_loop fuel this _) as [[[[m' q'] w'] hs]|]; reflexivity.
Qed.

(** X5.  An [update] that handled no wall hit leaves the trajectory
    untouched: any [update] after it, for an earlier or a later time, gives
    what it would have given without the first one. *)
Theorem update_hitless_keeps_trajectory (fuel : nat) (this this1 : t)
    (t1 t2 : num) :
  update fuel this t1 = Some (Ok (this1, [])) ->
  update fuel this1 t2 = update fuel this t2.
Proof.
  unfold update at 1.
  destruct (negb _); [discriminate|].
  destruct fuel as [|fuel]; [discriminate|]. cbn [update_loop].
  destruct (update_pass this _) as [q w|m T' h].
  - intros [= <-]. apply update_pos_vel.
  - destruct (update_loop fuel m T') as [[[[m' q'] w'] hs]|]; discriminate.
Qed.

Lemma update_hitless_keeps_trajectory_witness :
  update 1 engine3 (Fin (1 / 2)) = update 1 engine2 (Fin (1 / 2)).
Proof.
  exact (update_hitless_keeps_trajectory 1 engine2 engine3 (lit 1)
           (Fin (1 / 2)) update_engine2).
Defined.

(** X6.  The constructor accepts exactly an upper bound above 0
    ([Infinity] included) with a finite half-rebound velocity and a finite
    deceleration above 0; anything else, [NaN] included, is refused with a
    [RangeError]. *)
Theorem new_checks_arguments (U Hr ac : num) :
  ((exists this, new U Hr ac = Ok this) <->
   (U = PInf \/ exists r, U = Fin r /\ 0 < r) /\
   (exists r, Hr = Fin r /\ 0 < r) /\ (exists r, ac = Fin r /\ 0 < r)) /\
  (forall e, new U Hr ac = Throw e -> e = RangeError).
Proof.
  assert (EU : checkRange U (lit 0) false PInf true = Ok tt <->
               (U = PInf \/ exists r, U = Fin r /\ 0 < r)).
  { destruct U as [| | |r]; cbn; split; intros E; try easy;
      try (destruct E as [E|(? & E & ?)]; discriminate).
    - now left.
    - right. exists r. split; [reflexivity|].
      unfold checkRange in E. cbn in E. rewrite !orb_false_r in E.
      unfold Rltb in E. destruct (Rlt_dec 0 r); [assumption|discriminate].
    - destruct E as [E|(r' & [= <-] & Hr')]; [discriminate|].
      unfold checkRange. cbn. now rewrite Rltb_true. }
  unfold new, bind.
  destruct (checkRange U (lit 0) false PInf true) as [[]|e1] eqn:E1.
  - destruct (checkRange Hr (lit 0) false PInf false) as [[]|e2] eqn:E2.
    + destruct (checkRange ac (lit 0) false PInf false) as [[]|e3] eqn:E3.
      * split; [|discriminate]. split; [intros _|eauto].
        split; [now apply EU|]. split; now apply checkRange_positive.
      * split.
        -- split; [intros [? ?]; discriminate|].
           intros (_ & _ & Ha). apply checkRange_positive in Ha. congruence.
        -- intros e [= <-]. unfold checkRange in E3.
           destruct (negb _) in E3; congruence.
    + split.
      * split; [intros [? ?]; discriminate|].
        intros (_ & Hh & _). apply checkRange_positive in Hh. congruence.
      * intros e [= <-]. unfold checkRange in E2.
        destruct (negb _) in E2; congruence.
  - split.
    + split; [intros [? ?]; discriminate|].
      intros (HU & _). apply EU in HU. congruence.
    + intros e [= <-]. unfold checkRange in E1.
      destruct (negb _) in E1; congruence.
Qed.







End Motion.

(* ----------------------------------------------------------------- *)
(** ** The pointer tracker and the button *)

Module Controller.


(** The two velocity estimates of a tracker are finite. *)
Definition finite_vel (m : MouseTracker.t) : Prop :=
  (exists r, MouseTracker._velX m = Fin r) /\
  (exists r, MouseTracker._velY m = Fin r).


(** The states of the button that the constructor and the event handlers
    keep to: both engines are configured with the integer bounds [kx] and
    [ky], are positioned, and have finite velocities; the pixel position is
    a pair of integers within the bounds; an engine that moves has a
    start time; the hit box is finite; and the velocity estimates of the
    tracker are finite. *)
Record button_ok (kx ky : Z) (b : MovingButton.t) : Prop := {
  ok_motionX : valid (Fin (IZR kx)) (MovingButton._motionX b);
  ok_motionY : valid (Fin (IZR ky)) (MovingButton._motionY b);
  ok_posX : in_range (Fin (IZR kx)) (_initPos (MovingButton._motionX b));
  ok_posY : in_range (Fin (IZR ky)) (_initPos (MovingButton._motionY b));
  ok_velX : exists r, vel (MovingButton._motionX b) = Fin r;
  ok_velY : exists r, vel (MovingButton._motionY b) = Fin r;
  ok_startX :
    (exists s, _trajStartGlobalTime (MovingButton._motionX b) = Some (Fin s))
    \/ vel (MovingButton._motionX b) = lit 0;
  ok_startY :
    (exists s, _trajStartGlobalTime (MovingButton._motionY b) = Some (Fin s))
    \/ vel (MovingButton._motionY b) = lit 0;
  ok_left :
    exists i, MovingButton._leftPos b = Fin (IZR i) /\ (0 <= i <= kx)%Z;
  ok_top :
    exists i, MovingButton._topPos b = Fin (IZR i) /\ (0 <= i <= ky)%Z;
  ok_thickner : exists r, MovingButton._thickner b = Fin r;
  ok_width : exists r, MovingButton._hitWidth b = Fin r;
  ok_height : exists r, MovingButton._hitHeight b = Fin r;
  ok_tracker : finite_vel (MovingButton._mouseTracker b)
}.

Lemma in_range_Z (k i : Z) :
  (0 <= i <= k)%Z -> in_range (Fin (IZR k)) (Fin (IZR i)).
Proof.
  intros [H0 Hk]. apply IZR_le in H0, Hk.
  split; apply leb_Fin_iff; assumption.
Qed.

(** [Math.round] of a position within integer bounds is an integer within
    the bounds. *)
Lemma round_in_range (k : Z) (x : num) :
  in_range (Fin (IZR k)) x ->
  exists i, round x = Fin (IZR i) /\ (0 <= i <= k)%Z.
Proof.
  intros [E0 Ek]. destruct x as [| | |r]; try discriminate.
  apply leb_Fin_iff in E0, Ek. cbn [round].
  exists (Int_part (r + / 2)). split; [reflexivity|].
  destruct (base_Int_part (r + / 2)) as [Hlo Hhi].
  split.
  - assert (Hlt : IZR (- 1) < IZR (Int_part (r + / 2))) by (simpl; lra).
    apply lt_IZR in Hlt. lia.
  - assert (Hlt : IZR (Int_part (r + / 2)) < IZR (k + 1)).
    { rewrite plus_IZR. simpl. lra. }
    apply lt_IZR in Hlt. lia.
Qed.

(** What [_giveVel] and [_detectHit] leave alone. *)
Definition same_rest (b b' : MovingButton.t) : Prop :=
  MovingButton._mouseTracker b' = MovingButton._mouseTracker b /\
  MovingButton._hitImmune b' = MovingButton._hitImmune b /\
  MovingButton._leftPos b' = MovingButton._leftPos b /\
  MovingButton._topPos b' = MovingButton._topPos b /\
  MovingButton._alertTimeoutID b' = MovingButton._alertTimeoutID b /\
  MovingButton._thickner b' = MovingButton._thickner b /\
  MovingButton._hitWidth b' = MovingButton._hitWidth b /\
  MovingButton._hitHeight b' = MovingButton._hitHeight b.

(** What [_giveVel] sets. *)
Definition given (b : MovingButton.t) (h : MovingButton.host)
    (vx vy nw : R) (b' : MovingButton.t) : Prop :=
  _initVel (MovingButton._motionX b') = Fin vx /\
  _initVel (MovingButton._motionY b') = Fin vy /\
  vel (MovingButton._motionX b') = Fin vx /\
  vel (MovingButton._motionY b') = Fin vy /\
  _initPos (MovingButton._motionX b') = MovingButton._leftPos b /\
  _initPos (MovingButton._motionY b') = MovingButton._topPos b /\
  _trajStartGlobalTime (MovingButton._motionX b') = Some (Fin (nw / 1000)) /\
  _trajStartGlobalTime (MovingButton._motionY b') = Some (Fin (nw / 1000)) /\
  MovingButton._motionIntervalID b' = Some (MovingButton.intervalID h) /\
  MovingButton.classList b'
    = MovingButton.remove_shiny (MovingButton.classList b).

(** [_giveVel] with finite arguments on a state of [button_ok]. *)
Lemma giveVel_ok (kx ky : Z) (b : MovingButton.t) (vx vy nw : R)
    (h : MovingButton.host) :
  button_ok kx ky b ->
  exists b',
    MovingButton._giveVel b (Fin vx) (Fin vy) (Fin nw) h = Ok b' /\
    button_ok kx ky b' /\ same_rest b b' /\ given b h vx vy nw b' /\
    MovingButton._hit b' = MovingButton._hit b.
Proof.
  intros [HX HY HpX HpY HvX HvY HsX HsY (i & Ei & Hi) (j & Ej & Hj)
          Hth Hw Hh Htr].
  pose proof (in_range_Z kx i Hi) as Ri. pose proof (in_range_Z ky j Hj) as Rj.
  destruct HX as [HHx Hax [EUx HUx] Hvx Hpx].
  destruct HY as [HHy Hay [EUy HUy] Hvy Hpy].
  unfold MovingButton._giveVel, setPos.
  rewrite EUx, EUy. rewrite Ei, Ej in *.
  apply checkRange_closed in Ri, Rj. rewrite Ri, Rj. cbn [bind].
  unfold setVel, lit. rewrite div_Fin by lra.
  cbn [checkRange ltb gtb eqb andb orb negb bind].
  eexists. split; [reflexivity|].
  apply checkRange_closed in Ri, Rj.
  split; [|split; [|split]].
  - constructor; cbn; eauto.
    + constructor; cbn; eauto.
    + constructor; cbn; eauto.
  - unfold same_rest. cbn. rewrite Ei, Ej. repeat split; reflexivity.
  - unfold given. cbn. rewrite Ei, Ej. repeat split; reflexivity.
  - reflexivity.
Qed.




(** The vector of [_getUnitVecAwayFrom] has length 1. *)
Lemma unitVec_unit (rnd px py : R) :
  exists ux uy,
    MovingButton._getUnitVecAwayFrom (Fin rnd) (Fin px) (Fin py)
      = (Fin ux, Fin uy) /\
    ux * ux + uy * uy = 1.
Proof.
  destruct (Req_dec_T px 0) as [Epx|Epx];
    [destruct (Req_dec_T py 0) as [Epy|Epy]|].
  - subst. eexists. eexists. split; [apply unitVec_random|].
    pose proof (sin2_cos2 (rnd * 2 * Rtrigo1.PI)) as Hsc. unfold Rsqr in Hsc.
    lra.
  - destruct (unitVec_away rnd px py (or_intror Epy)) as [Hm Ev].
    eexists. eexists. split; [exact Ev|].
    pose proof (sqrt_sqrt (px * px + py * py) ltac:(nra)) as Hmm.
    set (m := R_sqrt.sqrt (px * px + py * py)) in *.
    replace (- (px / m) * - (px / m) + - (py / m) * - (py / m))
      with ((px * px + py * py) / (m * m)) by (field; lra).
    rewrite Hmm. field. nra.
  - destruct (unitVec_away rnd px py (or_introl Epx)) as [Hm Ev].
    eexists. eexists. split; [exact Ev|].
    pose proof (sqrt_sqrt (px * px + py * py) ltac:(nra)) as Hmm.
    set (m := R_sqrt.sqrt (px * px + py * py)) in *.
    replace (- (px / m) * - (px / m) + - (py / m) * - (py / m))
      with ((px * px + py * py) / (m * m)) by (field; lra).
    rewrite Hmm. field. nra.
Qed.




(** No trajectory starts after the time [c], in seconds. *)
Definition clock_ok (c : R) (b : MovingButton.t) : Prop :=
  (forall s, _trajStartGlobalTime (MovingButton._motionX b) = Some (Fin s) ->
             s <= c) /\
  (forall s, _trajStartGlobalTime (MovingButton._motionY b) = Some (Fin s) ->
             s <= c).






Lemma set_hitImmune_ok (kx ky : Z) (b : MovingButton.t) (x : bool) :
  button_ok kx ky b -> button_ok kx ky (MovingButton.set_hitImmune b x).
Proof. intros []. constructor; cbn; assumption. Qed.

Lemma set_classList_ok (kx ky : Z) (b : MovingButton.t)
    (c : MovingButton.classes) :
  button_ok kx ky b -> button_ok kx ky (MovingButton.set_classList b c).
Proof. intros []. constructor; cbn; assumption. Qed.


Lemma set_alertTimeoutID_ok (kx ky : Z) (b : MovingButton.t)
    (i : option nat) :
  button_ok kx ky b -> button_ok kx ky (MovingButton.set_alertTimeoutID b i).
Proof. intros []. constructor; cbn; assumption. Qed.











(** A click on a state of [button_ok]. *)
Lemma clicked_ok (kx ky : Z) (b : MovingButton.t) (ev : MovingButton.click)
    (h : MovingButton.host) (cx cy rx ry nw rnd : R) :
  button_ok kx ky b ->
  MovingButton.clientX ev = Fin cx -> MovingButton.clientY ev = Fin cy ->
  MovingButton.rect_x h = Fin rx -> MovingButton.rect_y h = Fin ry ->
  MovingButton.now h = Fin nw -> MovingButton.random h = Fin rnd ->
  exists b',
    MovingButton._clicked ev h b = Ok b' /\
    button_ok kx ky b' /\
    MovingButton._hitImmune b' = true /\
    MovingButton._alertTimeoutID b' = Some (MovingButton.timeoutID h) /\
    MovingButton._motionIntervalID b' = Some (MovingButton.intervalID h) /\
    MovingButton.classList b'
    = MovingButton.add_alert
        (MovingButton.remove_alert_fade
           (MovingButton.remove_shiny (MovingButton.classList b))) /\
    clock_ok (nw / 1000) b'.
Proof.
  intros Hok Ecx Ecy Erx Ery Enow Ernd.
  pose proof Hok as [_ _ _ _ _ _ _ _ _ _ (th & Eth) (hw & Ew) (hh & Eh) _].
  unfold MovingButton._clicked. cbv zeta.
  rewrite Ecx, Ecy, Erx, Ery, Enow, Ernd, Eth, Ew, Eh.
  match goal with
  | |- context [match ?P with pair _ _ => _ end] =>
      assert (HP : exists px py, P = (Fin px, Fin py))
  end.
  { destruct (_ && _)%bool.
    - eexists. eexists. reflexivity.
    - unfold lit. rewrite !div_Fin by lra. cbn [sub neg add].
      eexists. eexists. reflexivity. }
  destruct HP as (px & py & ->).
  destruct (unitVec_unit rnd px py) as (ux & uy & -> & _).
  cbn [fst snd]. unfold lit at 1 2. cbn [mul].
  destruct (giveVel_ok kx ky (MovingButton.set_hitImmune b true)
              (4000 * ux) (4000 * uy) nw h (set_hitImmune_ok _ _ _ _ Hok))
    as (b' & E & Hok' & Hrest & Hgiven & _).
  rewrite E. cbn [bind]. eexists. split; [reflexivity|].
  split; [now apply set_alertTimeoutID_ok, set_classList_ok|].
  destruct Hrest as (_ & Himm & _).
  destruct Hgiven as (_ & _ & _ & _ & _ & _ & EsX & EsY & Hint & Hcl).
  unfold clock_ok. cbn. rewrite Himm, Hint, Hcl, EsX, EsY.
  repeat split; try reflexivity; intros s [= <-]; lra.
Qed.

Lemma alertEnd_ok (kx ky : Z) (b : MovingButton.t) :
  button_ok kx ky b -> button_ok kx ky (MovingButton._alertEnd b).
Proof.
  intros Hok. unfold MovingButton._alertEnd.
  apply set_hitImmune_ok, set_alertTimeoutID_ok.
  destruct (MovingButton.alert _); [|exact Hok].
  now apply set_classList_ok.
Qed.

(** The engine of an axis, as the constructor of the button makes it. *)
Lemma engine_new (k : Z) :
  new (Fin (IZR k)) (lit 1000) (lit 25)
  = if (0 <? k)%Z
    then Ok (mk (lit 1000) (lit 25) (Fin (IZR k)) None NaN NaN (lit 0) (lit 0))
    else Throw RangeError.
Proof.
  unfold new, checkRange, lit, gtb.
  cbn [ltb eqb andb orb negb].
  destruct (0 <? k)%Z eqn:Hk.
  - apply Z.ltb_lt in Hk. apply IZR_lt in Hk.
    rewrite Rltb_true by exact Hk. cbn [orb andb negb bind].
    rewrite !Rltb_true by lra. reflexivity.
  - apply Z.ltb_ge in Hk. apply IZR_le in Hk.
    rewrite Rltb_false by exact Hk. reflexivity.
Qed.

Lemma new_ok (g : MovingButton.geometry) (c : MovingButton.classes)
    (cw ch lw rw tw bw wd hg : R) :
  MovingButton.rectCont_width g = Fin cw ->
  MovingButton.rectCont_height g = Fin ch ->
  MovingButton.leftW g = Fin lw -> MovingButton.rightW g = Fin rw ->
  MovingButton.topW g = Fin tw -> MovingButton.bottomW g = Fin bw ->
  MovingButton.rectBtn_width g = Fin wd ->
  MovingButton.rectBtn_height g = Fin hg ->
  let kx := Int_part (cw - lw - rw - wd) in
  let ky := Int_part (ch - tw - bw - hg) in
  if ((0 <? kx) && (0 <? ky))%Z then
    exists b,
      MovingButton.new g c = Ok b /\ button_ok kx ky b /\
      MovingButton._leftPos b = round (Fin (IZR kx / 2)) /\
      MovingButton._topPos b = round (Fin (IZR ky / 2)) /\
      vel (MovingButton._motionX b) = lit 0 /\
      vel (MovingButton._motionY b) = lit 0 /\
      MovingButton._hit b = false /\ MovingButton._hitImmune b = false /\
      MovingButton._motionIntervalID b = None /\
      MovingButton.shiny (MovingButton.classList b) = true /\
      _trajStartGlobalTime (MovingButton._motionX b) = None /\
      _trajStartGlobalTime (MovingButton._motionY b) = None
  else MovingButton.new g c = Throw RangeError.
Proof.
  intros Ecw Ech Elw Erw Etw Ebw Ewd Ehg kx ky.
  unfold MovingButton.new. cbv zeta.
  rewrite Ecw, Ech, Elw, Erw, Etw, Ebw, Ewd, Ehg. cbn [sub neg add floor].
  replace (cw + - lw + - rw + - wd) with (cw - lw - rw - wd) by lra.
  replace (ch + - tw + - bw + - hg) with (ch - tw - bw - hg) by lra.
  fold kx ky. rewrite !engine_new.
  destruct (0 <? kx)%Z eqn:Hkx; [|reflexivity].
  destruct (0 <? ky)%Z eqn:Hky; [|reflexivity].
  cbn [andb bind].
  apply Z.ltb_lt in Hkx, Hky.
  pose proof (IZR_lt _ _ Hkx) as Hkx'. pose proof (IZR_lt _ _ Hky) as Hky'.
  assert (Ex : (Fin (IZR kx) / lit 2)%js = Fin (IZR kx / 2))
    by (unfold lit; apply div_Fin; lra).
  assert (Ey : (Fin (IZR ky) / lit 2)%js = Fin (IZR ky / 2))
    by (unfold lit; apply div_Fin; lra).
  rewrite Ex, Ey.
  assert (Rx : in_range (Fin (IZR kx)) (Fin (IZR kx / 2))).
  { split; apply leb_Fin_iff; simpl in *; lra. }
  assert (Ry : in_range (Fin (IZR ky)) (Fin (IZR ky / 2))).
  { split; apply leb_Fin_iff; simpl in *; lra. }
  destruct (round_in_range kx _ Rx) as (i & Ei & Hi).
  destruct (round_in_range ky _ Ry) as (j & Ej & Hj).
  pose proof (in_range_Z kx i Hi) as Ri. pose proof (in_range_Z ky j Hj) as Rj.
  unfold setPos. cbn [_upperPos]. rewrite Ei, Ej.
  apply checkRange_closed in Ri, Rj. rewrite Ri, Rj. cbn [bind].
  apply checkRange_closed in Ri, Rj.
  eexists. split; [reflexivity|].
  split; [|cbn; repeat split; reflexivity].
  assert (Hlit : forall z, exists r, lit z = Fin r)
    by (intros z; now exists (IZR z)).
  constructor; cbn; eauto.
  - constructor; cbn; eauto.
    + exists (IZR 1000). split; [reflexivity|lra].
    + exists (IZR 25). split; [reflexivity|lra].
    + split; [reflexivity|]. now apply gtb_Fin_iff.
  - constructor; cbn; eauto.
    + exists (IZR 1000). split; [reflexivity|lra].
    + exists (IZR 25). split; [reflexivity|lra].
    + split; [reflexivity|]. now apply gtb_Fin_iff.
  - split; cbn; apply Hlit.
Qed.

(** X11.  The constructor of the button, on a page that reports finite
    sizes: with [W] and [Ht] the width and height that the container leaves
    to the button, it succeeds when both are at least 1, with a state of
    [button_ok] for the bounds [floor W] and [floor Ht], the button at rest
    at the rounded centre, shiny, not hit and not immune, with no timer and
    no trajectory started; it throws a [RangeError] otherwise. *)
Theorem new_button_ok (g : MovingButton.geometry) (c : MovingButton.classes)
    (cw ch lw rw tw bw wd hg : R) :
  MovingButton.rectCont_width g = Fin cw ->
  MovingButton.rectCont_height g = Fin ch ->
  MovingButton.leftW g = Fin lw -> MovingButton.rightW g = Fin rw ->
  MovingButton.topW g = Fin tw -> MovingButton.bottomW g = Fin bw ->
  MovingButton.rectBtn_width g = Fin wd ->
  MovingButton.rectBtn_height g = Fin hg ->
  let W := cw - lw - rw - wd in
  let Ht := ch - tw - bw - hg in
  (1 <= W /\ 1 <= Ht ->
   exists b,
     MovingButton.new g c = Ok b /\
     button_ok (Int_part W) (Int_part Ht) b /\
     MovingButton._leftPos b = round (Fin (IZR (Int_part W) / 2)) /\
     MovingButton._topPos b = round (Fin (IZR (Int_part Ht) / 2)) /\
     vel (MovingButton._motionX b) = lit 0 /\
     vel (MovingButton._motionY b) = lit 0 /\
     MovingButton._hit b = false /\ MovingButton._hitImmune b = false /\
     MovingButton._motionIntervalID b = None /\
     MovingButton.shiny (MovingButton.classList b) = true /\
     _trajStartGlobalTime (MovingButton._motionX b) = None /\
     _trajStartGlobalTime (MovingButton._motionY b) = None) /\
  (W < 1 \/ Ht < 1 -> MovingButton.new g c = Throw RangeError).
Proof.
  intros Ecw Ech Elw Erw Etw Ebw Ewd Ehg W Ht.
  pose proof (new_ok g c cw ch lw rw tw bw wd hg Ecw Ech Elw Erw Etw Ebw
                Ewd Ehg) as Hnew.
  cbv zeta in Hnew. fold W Ht in Hnew.
  assert (Hpart : forall r, (0 <? Int_part r)%Z = true <-> 1 <= r).
  { intros r. destruct (base_Int_part r) as [Hlo Hhi]. split.
    - intros Hk. apply Z.ltb_lt in Hk.
      assert (Hk' : (1 <= Int_part r)%Z) by lia.
      apply IZR_le in Hk'. lra.
    - intros Hr. apply Z.ltb_lt.
      assert (Hlt : IZR 0 < IZR (Int_part r)) by lra.
      now apply lt_IZR in Hlt. }
  split.
  - intros [HW HH]. apply Hpart in HW, HH. rewrite HW, HH in Hnew.
    exact Hnew.
  - intros Hsmall.
    destruct ((0 <? Int_part W)%Z && (0 <? Int_part Ht)%Z)%bool eqn:Hk;
      [|exact Hnew].
    apply andb_true_iff in Hk as [HW HH]. apply Hpart in HW, HH. lra.
Qed.



(** X14.  A click with finite coordinates on a state of [button_ok]
    returns normally with a state of [button_ok]: the button is immune and
    on alert, not shiny, and both timers are installed.  When the alert
    ends, the state is still one of [button_ok], the immunity and the
    timeout are cleared, and the alert fades. *)
Theorem click_then_alertEnd (kx ky : Z) (b : MovingButton.t)
    (ev : MovingButton.click) (h : MovingButton.host)
    (cx cy rx ry nw rnd : R) :
  button_ok kx ky b ->
  MovingButton.clientX ev = Fin cx -> MovingButton.clientY ev = Fin cy ->
  MovingButton.rect_x h = Fin rx -> MovingButton.rect_y h = Fin ry ->
  MovingButton.now h = Fin nw -> MovingButton.random h = Fin rnd ->
  exists b',
    MovingButton._clicked ev h b = Ok b' /\
    button_ok kx ky b' /\
    MovingButton._hitImmune b' = true /\
    MovingButton._alertTimeoutID b' = Some (MovingButton.timeoutID h) /\
    MovingButton._motionIntervalID b' = Some (MovingButton.intervalID h) /\
    MovingButton.classList b'
    = {| MovingButton.shiny := false;
         MovingButton.alert := true;
         MovingButton.alert_fade := false |} /\
    button_ok kx ky (MovingButton._alertEnd b') /\
    MovingButton._hitImmune (MovingButton._alertEnd b') = false /\
    MovingButton._alertTimeoutID (MovingButton._alertEnd b') = None /\
    MovingButton.classList (MovingButton._alertEnd b')
    = {| MovingButton.shiny := false;
         MovingButton.alert := false;
         MovingButton.alert_fade := true |} /\
    MovingButton._motionX (MovingButton._alertEnd b')
    = MovingButton._motionX b' /\
    MovingButton._motionY (MovingButton._alertEnd b')
    = MovingButton._motionY b'.
Proof.
  intros Hok Ecx Ecy Erx Ery Enow Ernd.
  destruct (clicked_ok kx ky b ev h cx cy rx ry nw rnd Hok Ecx Ecy Erx Ery
              Enow Ernd) as (b' & E & Hok' & Himm & Hal & Hint & Hcl & _).
  exists b'. split; [exact E|]. split; [exact Hok'|].
  split; [exact Himm|]. split; [exact Hal|]. split; [exact Hint|].
  assert (Hcl' : MovingButton.classList b'
                 = {| MovingButton.shiny := false;
                      MovingButton.alert := true;
                      MovingButton.alert_fade := false |})
    by (rewrite Hcl; reflexivity).
  split; [exact Hcl'|].
  split; [now apply alertEnd_ok|].
  unfold MovingButton._alertEnd. rewrite Hcl'. cbn.
  repeat split; reflexivity.
Qed.

(** X15.  When the pointer leaves the tracking area, or the window is
    resized, the handler returns normally from any state: the position of
    the pointer is unknown ([NaN]), both velocity estimates read 0 at any
    time, the button is not hit, and the engines, the pixel position, the
    classes, the immunity and the timers are as before. *)
Theorem leave_forgets_pointer (ev : MouseTracker.event)
    (ht : MouseTracker.host) (h : MovingButton.host) (b : MovingButton.t) :
  exists b',
    MovingButton.on_mouseleave ev ht h b = Ok b' /\
    MovingButton.on_resize ev ht h b = Ok b' /\
    MouseTracker.posX (MovingButton._mouseTracker b') = NaN /\
    MouseTracker.posY (MovingButton._mouseTracker b') = NaN /\
    (forall t0,
       MouseTracker.velX (MovingButton._mouseTracker b') t0 = lit 0 /\
       MouseTracker.velY (MovingButton._mouseTracker b') t0 = lit 0) /\
    MovingButton._hit b' = false /\
    MovingButton._motionX b' = MovingButton._motionX b /\
    MovingButton._motionY b' = MovingButton._motionY b /\
    MovingButton._leftPos b' = MovingButton._leftPos b /\
    MovingButton._topPos b' = MovingButton._topPos b /\
    MovingButton.classList b' = MovingButton.classList b /\
    MovingButton._hitImmune b' = MovingButton._hitImmune b /\
    MovingButton._motionIntervalID b' = MovingButton._motionIntervalID b /\
    MovingButton._alertTimeoutID b' = MovingButton._alertTimeoutID b.
Proof.
  unfold MovingButton.on_mouseleave, MovingButton.on_resize,
    MouseTracker._updateFromMouseLeave, MouseTracker._updateFromResize,
    MouseTracker._updateToUnknown, MouseTracker._updateMouseMotion,
    MovingButton._detectHit, MouseTracker._timeAvVel.
  cbn -[MovingButton._giveVel]. rewrite !andb_false_r. cbn.
  eexists. split; [reflexivity|]. split; [reflexivity|].
  cbn. split; [reflexivity|]. split; [reflexivity|].
  split; [|repeat split; reflexivity].
  intros t0. unfold MouseTracker.velX, MouseTracker.velY,
    MouseTracker._recentVelSample. cbn.
  split; destruct (_ <=? _)%js; reflexivity.
Qed.




Definition geometry0 : MovingButton.geometry :=
  {| MovingButton.bottomW := lit 1;
     MovingButton.topW := lit 1;
     MovingButton.leftW := lit 1;
     MovingButton.rightW := lit 1;
     MovingButton.rectBtn_width := lit 40;
     MovingButton.rectBtn_height := lit 20;
     MovingButton.rectCont_width := lit 200;
     MovingButton.rectCont_height := lit 100;
     MovingButton.rectCont_x := lit 0;
     MovingButton.rectCont_y := lit 0;
     MovingButton.trackingRect_x := lit 0;
     MovingButton.trackingRect_y := lit 0;
     MovingButton.window_scrollX := lit 0;
     MovingButton.window_scrollY := lit 0 |}.

Definition classes0 : MovingButton.classes :=
  {| MovingButton.shiny := false;
     MovingButton.alert := false;
     MovingButton.alert_fade := false |}.

Lemma engine_valid (m : t) (ts : option num) (p q v w : num) (r : R) :
  m = mk (lit 1000) (lit 25) (lit 100) ts p q (Fin r) w ->
  p = NaN \/ in_range (lit 100) p ->
  valid (Fin (IZR 100)) m.
Proof.
  intros -> Hp. constructor; cbn.
  - exists (IZR 1000). split; [reflexivity|lra].
  - exists (IZR 25). split; [reflexivity|lra].
  - split; [reflexivity|]. apply gtb_Fin_iff. lra.
  - now exists r.
  - exact Hp.
Qed.

Lemma in_range_50 : in_range (Fin (IZR 100)) (lit 50).
Proof. apply (in_range_Z 100 50). lia. Qed.

Lemma button0_ok : button_ok 100 100 button0.
Proof.
  assert (Hv : valid (Fin (IZR 100)) engine1).
  { apply (engine_valid _ None (lit 50) (lit 50) (lit 0) (lit 0) (IZR 0));
      [reflexivity|right; exact in_range_50]. }
  constructor; cbn; try exact Hv; try exact in_range_50;
    try (right; reflexivity); try (eexists; reflexivity).
  - exists 50%Z. split; [reflexivity|lia].
  - exists 50%Z. split; [reflexivity|lia].
  - split; cbn; eexists; reflexivity.
Qed.



Lemma new_button_ok_witness :
  exists b,
    MovingButton.new geometry0 classes0 = Ok b /\
    button_ok (Int_part (200 - 1 - 1 - 40)) (Int_part (100 - 1 - 1 - 20)) b.
Proof.
  destruct (new_button_ok geometry0 classes0 200 100 1 1 1 1 40 20
              eq_refl eq_refl eq_refl eq_refl eq_refl eq_refl eq_refl eq_refl)
    as [Hok _].
  destruct Hok as (b & E & Hb & _); [split; lra|].
  exists b. split; assumption.
Defined.




Lemma click_then_alertEnd_witness :
  exists b',
    MovingButton._clicked click0 host0 button0 = Ok b' /\
    button_ok 100 100 b' /\
    MovingButton._hitImmune b' = true /\
    MovingButton._hitImmune (MovingButton._alertEnd b') = false.
Proof.
  destruct (click_then_alertEnd 100 100 button0 click0 host0 80 60 50 50 5000
              (1 / 4) button0_ok eq_refl eq_refl eq_refl eq_refl eq_refl
              eq_refl)
    as (b' & E & Hok & Himm & _ & _ & _ & _ & Himm' & _).
  exists b'. split; [exact E|]. split; [exact Hok|].
  split; [exact Himm|exact Himm'].
Defined.


(** The events that the page delivers to the controller, as the two
    constructors register them: the five events of the tracker, the click
    on the button, the tick of the interval timer and the timeout that ends
    the alert. *)
Inductive pointer : Type :=
| Mousemove | Mouseover | Mouseleave | Scroll | Resize.

Definition handler (p : pointer)
    : MouseTracker.event -> MouseTracker.host -> MovingButton.host ->
      MovingButton.t -> result MovingButton.t :=
  match p with
  | Mousemove => MovingButton.on_mousemove
  | Mouseover => MovingButton.on_mouseover
  | Mouseleave => MovingButton.on_mouseleave
  | Scroll => MovingButton.on_scroll
  | Resize => MovingButton.on_resize
  end.

Inductive action : Type :=
| Pointer (p : pointer) (ev : MouseTracker.event) (ht : MouseTracker.host)
| Click (ev : MovingButton.click)
| Tick
| AlertEnd.

Definition step (fuel : nat) (a : action) (h : MovingButton.host)
    (b : MovingButton.t) : option (result MovingButton.t) :=
  match a with
  | Pointer p ev ht => Some (handler p ev ht h b)
  | Click ev => Some (MovingButton._clicked ev h b)
  | Tick => MovingButton._updateMotion fuel h b
  | AlertEnd => Some (Ok (MovingButton._alertEnd b))
  end.

(** The handlers run one after the other, each to its end; an error ends
    the run. *)
Fixpoint run (fuel : nat) (l : list (action * MovingButton.host))
    (b : MovingButton.t) : option (result MovingButton.t) :=
  match l with
  | [] => Some (Ok b)
  | (a, h) :: l' =>
      match step fuel a h b with
      | Some (Ok b') => run fuel l' b'
      | r => r
      end
  end.



(** X17.  [_entrySides] with finite arguments always reports a side: a
    relative velocity along one axis only is reported as an entry along that
    axis only, no relative velocity as both, and otherwise the two flags
    compare [|vX| dY] with [|vY| dX], both being set exactly when these are
    equal (the corner). *)
Theorem entrySides_reports_a_side (b : MovingButton.t)
    (x y vX vY hw hh : R) :
  MovingButton._hitWidth b = Fin hw -> MovingButton._hitHeight b = Fin hh ->
  let dX := if Rlt_dec 0 vX then x else hw - x in
  let dY := if Rlt_dec 0 vY then y else hh - y in
  exists horizontal vertical,
    MovingButton._entrySides b (Fin x) (Fin y) (Fin vX) (Fin vY)
      = (horizontal, vertical) /\
    (horizontal || vertical = true) /\
    (vX = 0 -> vertical = true /\ (horizontal = true <-> vY = 0)) /\
    (vY = 0 -> horizontal = true /\ (vertical = true <-> vX = 0)) /\
    (vX <> 0 -> vY <> 0 ->
     (horizontal = true <-> Rabs vY * dX <= Rabs vX * dY) /\
     (vertical = true <-> Rabs vX * dY <= Rabs vY * dX)).
Proof.
  intros Ew Eh dX dY. unfold MovingButton._entrySides. rewrite Ew, Eh.
  unfold lit, gtb.
  destruct (Req_dec_T vX 0) as [EX|NX]; destruct (Req_dec_T vY 0) as [EY|NY].
  - rewrite (eqb_Fin_true vX 0 EX), (eqb_Fin_true vY 0 EY). cbn [orb].
    eexists. eexists. split; [reflexivity|]. split; [reflexivity|].
    repeat split; intros; try reflexivity; try assumption; contradiction.
  - rewrite (eqb_Fin_true vX 0 EX), (eqb_Fin_false vY 0 NY). cbn [orb].
    eexists. eexists. split; [reflexivity|]. split; [reflexivity|].
    repeat split; intros; try reflexivity; try discriminate;
      try contradiction.
  - rewrite (eqb_Fin_false vX 0 NX), (eqb_Fin_true vY 0 EY). cbn [orb].
    eexists. eexists. split; [reflexivity|]. split; [reflexivity|].
    repeat split; intros; try reflexivity; try discriminate;
      try contradiction.
  - rewrite (eqb_Fin_false vX 0 NX), (eqb_Fin_false vY 0 NY). cbn [orb].
    assert (EdY : (if (Fin 0 <? Fin vY)%js then Fin y else (Fin hh - Fin y)%js)
                  = Fin dY).
    { unfold dY, ltb, Rltb. destruct (Rlt_dec 0 vY); reflexivity. }
    assert (EdX : (if (Fin 0 <? Fin vX)%js then Fin x else (Fin hw - Fin x)%js)
                  = Fin dX).
    { unfold dX, ltb, Rltb. destruct (Rlt_dec 0 vX); reflexivity. }
    rewrite EdY, EdX. cbn [abs mul].
    eexists. eexists. split; [reflexivity|].
    split.
    + destruct (Rle_dec (Rabs vY * dX) (Rabs vX * dY)) as [Hle|Hgt].
      * unfold geb. rewrite leb_Fin_true by exact Hle. reflexivity.
      * unfold geb. rewrite (leb_Fin_true (Rabs vX * dY)) by lra.
        apply orb_true_r.
    + split; [intros; contradiction|]. split; [intros; contradiction|].
      intros _ _. split; [apply geb_Fin_iff|apply leb_Fin_iff].
Qed.


Lemma entrySides_reports_a_side_witness :
  exists horizontal vertical,
    MovingButton._entrySides button0 (Fin 10) (Fin 5) (Fin 3) (Fin (- 4))
      = (horizontal, vertical) /\
    (horizontal || vertical = true).
Proof.
  destruct (entrySides_reports_a_side button0 10 5 3 (- 4) 44 24
              eq_refl eq_refl) as (hz & vt & E & Hside & _).
  exists hz, vt. split; assumption.
Defined.

End Controller.
